(** * atstdd: packing, slicing and chained verification of attestations

    A shallow embedding of [src/utils/attestations.ts]: [pack], [slice],
    [hash], [verify] and [rehash], with the properties of the batching and
    verification subsystem stated over it. *)

From Stdlib Require Import String Ascii ZArith List Bool Lia Permutation.
From Stdlib Require Import DecimalString.
From Equations Require Import Equations.
Import ListNotations.

Open Scope string_scope.
Open Scope list_scope.
Open Scope Z_scope.

(** ** Data model *)

(** [ethers.constants.AddressZero] and [ethers.constants.HashZero]. *)
Definition AddressZero : string :=
  "0x0000000000000000000000000000000000000000".
Definition HashZero : string :=
  "0x0000000000000000000000000000000000000000000000000000000000000000".

(** Modelled from the spec: the [EncodedAttestation] interface
    ([src/interfaces/attestation]) is missing; a record is a category
    identifier, an optional recipient and an opaque payload. [None] stands
    for an absent ([undefined] or [null]) recipient. *)
Record EncodedAttestation := mkEncoded {
  att_schema : string;
  att_recipient : option string;
  att_data : string
}.

(** [AttestationRequestData] of the EAS SDK. *)
Record AttestationRequestData := mkData {
  recipient : string;
  expirationTime : Z;
  revocable : bool;
  refUID : string;
  data : string;
  value : Z
}.

(** [MultiAttestationRequest] of the EAS SDK: a schema and its entries. *)
Record MultiAttestationRequest := mkRequest {
  req_schema : string;
  req_data : list AttestationRequestData
}.

(** A JavaScript [Error] as the estimator throws it: the model keeps its
    message, the only field [slice] reads. *)
Record Error := mkError { message : string }.

(** What a call does: it returns, it throws, or the model ran out of the
    iterations it was given. *)
Inductive outcome (A : Type) : Type :=
| Returned (a : A)
| Thrown (e : Error)
| OutOfFuel.
Arguments Returned {A} a.
Arguments Thrown {A} e.
Arguments OutOfFuel {A}.

(** ** JavaScript primitives used by the source *)

(** [String.prototype.includes]. *)
Fixpoint includes (hay needle : string) : bool :=
  String.prefix needle hay
  || match hay with
     | EmptyString => false
     | String _ rest => includes rest needle
     end.

(** Relative index of [Array.prototype.slice]: negative indices count from
    the end, everything is clamped to [0, len]. *)
Definition clamp_index (len i : Z) : Z :=
  if i <? 0 then Z.max (len + i) 0 else Z.min i len.

(** [Array.prototype.slice(start, end)]. *)
Definition array_slice {A : Type} (l : list A) (s e : Z) : list A :=
  let len := Z.of_nat (length l) in
  let k := clamp_index len s in
  let final := clamp_index len e in
  firstn (Z.to_nat (final - k)) (skipn (Z.to_nat k) l).

(** ** pack *)

(** The object literal pushed for one attestation (lines 29-36);
    [a || b] takes [b] when [a] is absent or the empty string. *)
Definition request_data_of (a : EncodedAttestation) : AttestationRequestData :=
  {| recipient := match att_recipient a with
                  | Some r => if r =? "" then AddressZero else r
                  | None => AddressZero
                  end;
     expirationTime := 0;
     revocable := false;
     refUID := HashZero;
     data := att_data a;
     value := 0 |}%string.

(** [entry.data.push(d)] on the first entry of [acc] whose schema is [s]:
    the entries of [acc] are distinct objects, so the mutation is an update
    in place of that entry alone. *)
Fixpoint push_data (s : string) (d : AttestationRequestData)
    (acc : list MultiAttestationRequest) : list MultiAttestationRequest :=
  match acc with
  | [] => []
  | e :: rest =>
      if (req_schema e =? s)%string
      then mkRequest (req_schema e) (req_data e ++ [d]) :: rest
      else e :: push_data s d rest
  end.

(** The reducer of [pack] (lines 16-39). *)
Definition pack_step (acc : list MultiAttestationRequest)
    (attestation : EncodedAttestation) : list MultiAttestationRequest :=
  let acc' :=
    match find (fun e => (req_schema e =? att_schema attestation)%string) acc with
    | Some _ => acc
    | None => acc ++ [mkRequest (att_schema attestation) []]
    end in
  push_data (att_schema attestation) (request_data_of attestation) acc'.

Definition pack (attestations : list EncodedAttestation)
  : list MultiAttestationRequest :=
  fold_left pack_step attestations [].

(** ** slice *)

(** The gas estimator [attester.estimateGas.attest([request], {from})]:
    an estimate or a thrown error. *)
Definition estimator := MultiAttestationRequest -> Z + Error.

(** The attester contract as [slice] uses it: the [attest] estimator, when
    the contract has one, and the gas limit of the latest block. *)
Record Attester := mkAttester {
  estimateGas_attest : option estimator;
  gasLimit : Z
}.

(** The test of the [catch] clause (lines 101-104). *)
Definition exceeds_or_cannot_estimate (err : Error) : bool :=
  includes (message err) "exceeds gas limit"
  || includes (message err) "cannot estimate gas".

(** One probe of the binary search (lines 81-109): the bounds after it, or
    the error thrown again. *)
Definition probe (est : estimator) (limit : Z) (request : MultiAttestationRequest)
    (start lo hi : Z) : (Z * Z) + Error :=
  let mid := (lo + hi) / 2 in
  match est (mkRequest (req_schema request)
                       (array_slice (req_data request) start mid)) with
  | inl estimate =>
      if estimate >? limit - 100000
      then inl (lo, mid - 1)
      else inl (mid + 1, hi)
  | inr err =>
      if exceeds_or_cannot_estimate err
      then inl (lo, mid - 1)
      else inr err
  end.

(** A value together with the equation that names it, so that the
    recursive call of [search] knows the probe it follows. *)
Definition inspect {A : Type} (a : A) : {b : A | a = b} := exist _ a eq_refl.

(** The inner loop [while (lo <= hi)] (lines 79-110): the final [lo], or the
    error that left the loop. *)
Equations? search (est : estimator) (limit : Z) (request : MultiAttestationRequest)
    (start lo hi : Z) : Z + Error by wf (Z.to_nat (hi + 1 - lo)) lt :=
  search est limit request start lo hi with Z_le_gt_dec lo hi => {
    | right _ => inl lo
    | left Hle with inspect (probe est limit request start lo hi) => {
        | exist _ (inl (lo', hi')) Hp => search est limit request start lo' hi'
        | exist _ (inr err) _ => inr err } }.
Proof.
  clear search. unfold probe in Hp.
  assert (lo <= (lo + hi) / 2 <= hi)
    by (split; [apply Z.div_le_lower_bound | apply Z.div_le_upper_bound]; lia).
  destruct (est _) as [c | e].
  - destruct (c >? limit - 100000); inversion Hp; subst; lia.
  - destruct (exceeds_or_cannot_estimate e); inversion Hp; subst; lia.
Qed.

(** The outer loop [while (start < request.data.length)] (lines 73-120),
    run for at most [fuel] iterations; [sliced] is the array built so far. *)
Fixpoint slice_request (fuel : nat) (est : estimator) (limit : Z)
    (request : MultiAttestationRequest) (start : Z)
    (sliced : list MultiAttestationRequest)
  : outcome (list MultiAttestationRequest) :=
  if start <? Z.of_nat (length (req_data request)) then
    match fuel with
    | O => OutOfFuel
    | S fuel' =>
        match search est limit request start start
                (Z.of_nat (length (req_data request))) with
        | inr err => Thrown err
        | inl lo =>
            slice_request fuel' est limit request lo
              (sliced ++ [mkRequest (req_schema request)
                            (array_slice (req_data request) start
                               (Z.max start (lo - 1)))])
        end
    end
  else Returned sliced.

(** The loop over the requests (lines 69-121). *)
Fixpoint slice_requests (fuel : nat) (est : estimator) (limit : Z)
    (requests sliced : list MultiAttestationRequest)
  : outcome (list MultiAttestationRequest) :=
  match requests with
  | [] => Returned sliced
  | request :: rest =>
      match slice_request fuel est limit request 0 sliced with
      | Returned sliced' => slice_requests fuel est limit rest sliced'
      | Thrown err => Thrown err
      | OutOfFuel => OutOfFuel
      end
  end.

(** [slice]; [fuel] bounds the iterations of the outer loop on each
    request. *)
Definition slice (fuel : nat) (attester : Attester)
    (requests : list MultiAttestationRequest)
  : outcome (list MultiAttestationRequest) :=
  match estimateGas_attest attester with
  | None => Thrown (mkError "attest method not found")
  | Some est => slice_requests fuel est (gasLimit attester) requests []
  end.

(** ** resolve *)

(** [ChainAddressMapping] ([src/utils/addresses.ts]): chain ids and their
    contract addresses. *)
Definition ChainAddressMapping := list (Z * string).

Definition EAS : ChainAddressMapping :=
  [(420, "0x4200000000000000000000000000000000000021")].

Definition REGISTRY : ChainAddressMapping :=
  [(420, "0x4200000000000000000000000000000000000020")].

(** [mapping[chainid]]: [None] stands for [undefined]. *)
Fixpoint lookup_chain (mapping : ChainAddressMapping) (chainid : Z)
  : option string :=
  match mapping with
  | [] => None
  | (id, address) :: rest =>
      if id =? chainid then Some address else lookup_chain rest chainid
  end.

(** A chain id inside a template literal: plain decimal digits, as
    JavaScript prints integers below 1e21. *)
Definition chainid_to_string (chainid : Z) : string :=
  NilZero.string_of_int (Z.to_int chainid).

(** [resolve] ([src/utils/addresses.ts]); [chain] is what awaiting
    [getChainId(provider)] gives, a chain id or the error it throws, and is
    looked at only when no address is supplied. *)
Definition resolve (mapping : ChainAddressMapping) (chain : Z + Error)
    (supplied : option string) : outcome string :=
  let from_mapping :=
    match chain with
    | inr err => Thrown err
    | inl chainid =>
        match lookup_chain mapping chainid with
        | Some resolved => Returned resolved
        | None =>
            Thrown (mkError ("EAS contract not found for chain id "
                             ++ chainid_to_string chainid
                             ++ ", must supply manually")%string)
        end
    end in
  match supplied with
  | Some address => if (address =? "")%string then from_mapping
                    else Returned address
  | None => from_mapping
  end.

(** ** The vocabulary of the specification *)

(** [l1] is [l2] with some elements left out, the others in their order. *)
Inductive subsequence {A : Type} : list A -> list A -> Prop :=
| subsequence_nil : subsequence [] []
| subsequence_skip x l1 l2 : subsequence l1 l2 -> subsequence l1 (x :: l2)
| subsequence_keep x l1 l2 : subsequence l1 l2 -> subsequence (x :: l1) (x :: l2).

(** The flattened entry sequence of a collection, each entry with the
    schema of its batch. *)
Definition entries (requests : list MultiAttestationRequest)
  : list (string * AttestationRequestData) :=
  flat_map (fun r => map (pair (req_schema r)) (req_data r)) requests.

(** The collection without its first [k] entries, every batch kept under
    its schema. *)
Fixpoint drop_entries (k : nat) (requests : list MultiAttestationRequest)
  : list MultiAttestationRequest :=
  match requests with
  | [] => []
  | r :: rest =>
      mkRequest (req_schema r) (skipn k (req_data r))
      :: drop_entries (k - length (req_data r)) rest
  end.

(** What the specification expects of [rehash] after [k] entries: the rest
    of the entries under their schemas, empty batches omitted. *)
Definition remaining (k : nat) (requests : list MultiAttestationRequest)
  : list MultiAttestationRequest :=
  filter (fun r => (0 <? length (req_data r))%nat) (drop_entries k requests).

(** The schemas of a sequence in the order of their first occurrence. *)
Fixpoint first_seen (l : list string) : list string :=
  match l with
  | [] => []
  | s :: rest => s :: filter (fun x => negb (x =? s)%string) (first_seen rest)
  end.

(** The request handed to the estimator for the range [start, mid). *)
Definition range (request : MultiAttestationRequest) (start mid : Z)
  : MultiAttestationRequest :=
  mkRequest (req_schema request) (array_slice (req_data request) start mid).

(** The estimator accepts a request: an estimate not above the limit less
    the buffer. *)
Definition fits (est : estimator) (limit : Z) (r : MultiAttestationRequest)
  : Prop :=
  exists estimate, est r = inl estimate /\ estimate <= limit - 100000.

(** The estimator rejects a request: an estimate above the limit less the
    buffer, or an error of the two tolerated kinds. *)
Definition too_big (est : estimator) (limit : Z) (r : MultiAttestationRequest)
  : Prop :=
  (exists estimate, est r = inl estimate /\ estimate > limit - 100000)
  \/ (exists err, est r = inr err /\ exceeds_or_cannot_estimate err = true).


(** The batch that groups the records of schema [s], in input order. *)
Definition group (l : list EncodedAttestation) (s : string)
  : MultiAttestationRequest :=
  mkRequest s
    (map request_data_of (filter (fun a => (att_schema a =? s)%string) l)).

(** A record as tagged entry of the output. *)
Definition tagged (a : EncodedAttestation) : string * AttestationRequestData :=
  (att_schema a, request_data_of a).

(** ** Sample data *)

Module Sample.

Definition r1 := mkData "0x01" 0 false HashZero "0xaa" 0.
Definition r2 := mkData "0x02" 0 false HashZero "0xbb" 0.
Definition r3 := mkData "0x03" 0 false HashZero "0xcc" 0.

(** An estimator that accepts every range. *)
Definition always_fits : estimator := fun _ => inl 21000.

(** An estimator that reports "exceeds gas limit" for two entries or more. *)
Definition one_at_a_time : estimator := fun r =>
  if (length (req_data r) <? 2)%nat then inl 21000
  else inr (mkError "tx exceeds gas limit").

(** An estimator of a contract that reverts on every call. *)
Definition always_reverts : estimator := fun _ =>
  inr (mkError "cannot estimate gas; transaction may fail").

(** A block gas limit, and an estimator that always answers that limit
    less the buffer. *)
Definition block_limit : Z := 30000000.
Definition at_the_margin : estimator := fun _ => inl (block_limit - 100000).


(** Two batches as [pack] builds them, and a collection with the empty
    batch that [slice] emits when a single entry does not fit. *)
Definition two_batches : list MultiAttestationRequest :=
  [mkRequest "0xA" [r1; r3]; mkRequest "0xB" [r2]].
Definition with_empty_batch : list MultiAttestationRequest :=
  [mkRequest "0xA" [r1]; mkRequest "0xB" []].

(** Three records of two schemas; the second has no recipient and the
    third an empty one. *)
Definition addressed := mkEncoded "0xA" (Some "0x01") "0xaa".
Definition unaddressed := mkEncoded "0xB" None "0xbb".
Definition blank := mkEncoded "0xA" (Some "") "0xcc".
Definition records : list EncodedAttestation :=
  [addressed; unaddressed; blank].

(** A toy digest: concatenation stands in for encoding and hashing. *)
Definition toy_keccak (s : string) : string := s.
Definition toy_encode (vhash schema : string) (a : AttestationRequestData)
  : string :=
  (vhash ++ "|" ++ schema ++ ":" ++ data a)%string.

End Sample.

(** ** hash, verify, rehash *)

Section Chain.

(** [ethers.utils.keccak256] and [defaultAbiCoder.encode] at the tuple
    type of [hash]: library functions, taken as given. The encoder throws
    on fields that do not fit their types; the model covers the values
    that encode, so what is said of a call of [verify] or [rehash] is said
    of a call whose entries were hashed. *)
Variable keccak256 : string -> string.
Variable abi_encode : string -> string -> AttestationRequestData -> string.

Definition hash (vhash schema : string) (attestation : AttestationRequestData)
  : string :=
  keccak256 (abi_encode vhash schema attestation).

(** [verify] (lines 164-177): the two nested loops, then the comparison. *)
Definition verify (vhash : string) (requests : list MultiAttestationRequest)
  : bool :=
  let computed :=
    fold_left
      (fun computed entry =>
         fold_left (fun computed attestation =>
                      hash computed (req_schema entry) attestation)
                   (req_data entry) computed)
      requests HashZero in
  (computed =? vhash)%string.

(** The loop variables of [rehash] inside one request: [computed],
    [found] and [updated.data]. *)
Definition rehash_entry (vhash schema : string)
    (st : string * bool * list AttestationRequestData)
    (d : AttestationRequestData)
  : string * bool * list AttestationRequestData :=
  let '(computed, found, updated) := st in
  let computed := hash computed schema d in
  if (computed =? vhash)%string then (computed, true, updated)
  else if found then (computed, found, updated ++ [d])
       else (computed, found, updated).

(** One turn of the loop over the requests (lines 197-220): [computed],
    [found] and [rehashed]. *)
Definition rehash_request (vhash : string)
    (st : string * bool * list MultiAttestationRequest)
    (request : MultiAttestationRequest)
  : string * bool * list MultiAttestationRequest :=
  let '(computed, found, rehashed) := st in
  let '(computed, found, updated) :=
    fold_left (rehash_entry vhash (req_schema request)) (req_data request)
              (computed, found, []) in
  if found && (0 <? length updated)%nat
  then (computed, found, rehashed ++ [mkRequest (req_schema request) updated])
  else (computed, found, rehashed).

(** [rehash] (lines 188-232). *)
Definition rehash (vhash : string) (requests : list MultiAttestationRequest)
  : outcome (list MultiAttestationRequest) :=
  let '(_, found, rehashed) :=
    fold_left (rehash_request vhash) requests (HashZero, false, []) in
  if negb found then
    if (vhash =? HashZero)%string then Returned requests
    else Thrown (mkError "verification hash mismatch")
  else Returned rehashed.

(** *** The vocabulary of the specification *)

(** The strict left fold of [hash] over tagged entries. *)
Definition foldHash (start : string)
    (l : list (string * AttestationRequestData)) : string :=
  fold_left (fun h e => hash h (fst e) (snd e)) l start.

(** The commitment after the first [k] entries of a collection. *)
Definition prefix_commitment (requests : list MultiAttestationRequest)
    (k : nat) : string :=
  foldHash HashZero (firstn k (entries requests)).

(** *** Where the running commitment meets the target *)

(** From commitment [c] reached after [p] entries, over the entries [suf]
    still to come, the running commitment equals [vhash] exactly at
    position [k] of the whole sequence (nowhere when [k = 0]). *)
Definition hit_only_at (vhash : string) (k : nat) (c : string) (p : nat)
    (suf : list (string * AttestationRequestData)) : Prop :=
  forall j, (1 <= j <= length suf)%nat ->
    (foldHash c (firstn j suf) = vhash <-> (p + j = k)%nat).

(** The value of [found] after [p] entries. *)
Definition reached (k p : nat) : bool := ((1 <=? k) && (k <=? p))%nat.

(** Whether the running commitment, started at [c], equals [vhash] after
    one of the entries [es]. *)
Fixpoint meets (vhash c : string) (es : list (string * AttestationRequestData))
  : bool :=
  match es with
  | [] => false
  | e :: rest =>
      (hash c (fst e) (snd e) =? vhash)%string
      || meets vhash (hash c (fst e) (snd e)) rest
  end.

(** *** Properties of the commitment chain *)

Lemma foldHash_app c l1 l2 :
  foldHash c (l1 ++ l2) = foldHash (foldHash c l1) l2.
Proof. apply fold_left_app. Qed.

Lemma fold_hash_batch s ds c :
  fold_left (fun computed attestation => hash computed s attestation) ds c
  = foldHash c (map (pair s) ds).
Proof.
  revert c. induction ds as [| d ds IH]; intro c; [reflexivity |].
  simpl. apply IH.
Qed.

(** The nested loops of [verify] compute the fold over the flattened
    entries. *)
Lemma verify_loops_fold requests c :
  fold_left
    (fun computed entry =>
       fold_left (fun computed attestation =>
                    hash computed (req_schema entry) attestation)
                 (req_data entry) computed)
    requests c
  = foldHash c (entries requests).
Proof.
  revert c. induction requests as [| r rs IH]; intro c; [reflexivity |].
  simpl. rewrite IH, fold_hash_batch, foldHash_app. reflexivity.
Qed.

Lemma verify_spec vhash requests :
  verify vhash requests = true <-> foldHash HashZero (entries requests) = vhash.
Proof.
  unfold verify. rewrite verify_loops_fold. apply String.eqb_eq.
Qed.

Lemma hit_only_at_head vhash k c p s d suf :
  hit_only_at vhash k c p ((s, d) :: suf) ->
  (hash c s d = vhash <-> S p = k).
Proof.
  intro H. specialize (H 1%nat). simpl in H.
  rewrite H by lia. lia.
Qed.

Lemma hit_only_at_tail vhash k c p s d suf :
  hit_only_at vhash k c p ((s, d) :: suf) ->
  hit_only_at vhash k (hash c s d) (S p) suf.
Proof.
  intros H j Hj. specialize (H (S j)). simpl in H.
  rewrite H by lia. lia.
Qed.

Lemma hit_only_at_app vhash k c p l1 l2 :
  hit_only_at vhash k c p (l1 ++ l2) ->
  hit_only_at vhash k (foldHash c l1) (p + length l1) l2.
Proof.
  revert c p. induction l1 as [| [s d] l1 IH]; intros c p H; simpl.
  - rewrite Nat.add_0_r. exact H.
  - rewrite Nat.add_succ_r. apply (IH _ (S p)).
    apply hit_only_at_tail. exact H.
Qed.

(** The inner loop of [rehash] over one batch. *)
Lemma rehash_entries_spec vhash k s ds rest c p upd :
  hit_only_at vhash k c p (map (pair s) ds ++ rest) ->
  fold_left (rehash_entry vhash s) ds (c, reached k p, upd)
  = (foldHash c (map (pair s) ds),
     reached k (p + length ds),
     upd ++ (if (1 <=? k)%nat then skipn (k - p) ds else [])).
Proof.
  revert c p upd. induction ds as [| d ds IH]; intros c p upd H.
  - cbn [fold_left map length]. rewrite Nat.add_0_r, skipn_nil.
    destruct (1 <=? k)%nat; rewrite app_nil_r; reflexivity.
  - simpl map in H. simpl app in H.
    pose proof (hit_only_at_head _ _ _ _ _ _ _ H) as Hhd.
    apply hit_only_at_tail in H. specialize (IH (hash c s d) (S p)).
    simpl fold_left.
    change (foldHash c (map (pair s) (d :: ds)))
      with (foldHash (hash c s d) (map (pair s) ds)).
    cbn [length]. rewrite Nat.add_succ_r.
    change (S (p + length ds))%nat with (S p + length ds)%nat.
    destruct (String.eqb_spec (hash c s d) vhash) as [Heq | Hne].
    + apply Hhd in Heq. subst k.
      pose proof (IH upd H) as E.
      replace (reached (S p) (S p)) with true in E
        by (unfold reached; simpl; symmetry; apply Nat.leb_refl).
      rewrite E. cbn [Nat.leb].
      replace (S p - p)%nat with 1%nat by lia.
      rewrite Nat.sub_diag. reflexivity.
    + assert (S p <> k) as Hk by (intro; apply Hne, Hhd; assumption).
      unfold reached at 1 2 3.
      destruct (1 <=? k)%nat eqn:H1; cbn [andb].
      * apply Nat.leb_le in H1.
        destruct (Nat.leb_spec k p) as [Hle | Hgt].
        -- pose proof (IH (upd ++ [d]) H) as E.
           replace (reached k (S p)) with true in E
             by (symmetry; unfold reached; apply andb_true_iff;
                 split; apply Nat.leb_le; lia).
           rewrite E.
           replace (1 <=? k)%nat with true by (symmetry; apply Nat.leb_le; lia).
           replace (k - S p)%nat with 0%nat by lia.
           replace (k - p)%nat with 0%nat by lia.
           simpl. rewrite <- app_assoc. reflexivity.
        -- pose proof (IH upd H) as E.
           replace (reached k (S p)) with false in E
             by (symmetry; unfold reached; apply andb_false_iff;
                 right; apply Nat.leb_gt; lia).
           rewrite E.
           replace (1 <=? k)%nat with true by (symmetry; apply Nat.leb_le; lia).
           replace (k - p)%nat with (S (k - S p)) by lia. reflexivity.
      * pose proof (IH upd H) as E.
        replace (reached k (S p)) with false in E
          by (unfold reached; rewrite H1; reflexivity).
        rewrite E. reflexivity.
Qed.

Lemma remaining_cons k r rs :
  remaining k (r :: rs)
  = (if (0 <? length (skipn k (req_data r)))%nat
     then [mkRequest (req_schema r) (skipn k (req_data r))] else [])
    ++ remaining (k - length (req_data r)) rs.
Proof.
  unfold remaining. simpl.
  destruct (0 <? length (skipn k (req_data r)))%nat; reflexivity.
Qed.

(** One request of the outer loop of [rehash]. *)
Lemma rehash_request_spec vhash k r rest c p acc :
  hit_only_at vhash k c p (map (pair (req_schema r)) (req_data r) ++ rest) ->
  rehash_request vhash (c, reached k p, acc) r
  = (foldHash c (map (pair (req_schema r)) (req_data r)),
     reached k (p + length (req_data r)),
     acc ++ (if (1 <=? k)%nat
             then (if (0 <? length (skipn (k - p) (req_data r)))%nat
                   then [mkRequest (req_schema r) (skipn (k - p) (req_data r))]
                   else [])
             else [])).
Proof.
  intro H. unfold rehash_request.
  rewrite (rehash_entries_spec _ _ _ _ _ _ _ _ H). cbn [app].
  destruct (1 <=? k)%nat eqn:H1.
  - destruct (reached k (p + length (req_data r))) eqn:Hr; cbn [andb].
    + destruct (0 <? length (skipn (k - p) (req_data r)))%nat;
        [| rewrite app_nil_r]; reflexivity.
    + unfold reached in Hr. rewrite H1 in Hr. cbn [andb] in Hr.
      apply Nat.leb_gt in Hr. rewrite skipn_all2 by lia.
      rewrite app_nil_r. reflexivity.
  - cbn [length Nat.ltb Nat.leb]. rewrite andb_false_r, app_nil_r.
    reflexivity.
Qed.

(** The outer loop of [rehash] over the collection. *)
Lemma rehash_requests_spec vhash k requests c p acc :
  hit_only_at vhash k c p (entries requests) ->
  fold_left (rehash_request vhash) requests (c, reached k p, acc)
  = (foldHash c (entries requests),
     reached k (p + length (entries requests)),
     acc ++ (if (1 <=? k)%nat then remaining (k - p) requests else [])).
Proof.
  revert c p acc. induction requests as [| r rs IH]; intros c p acc H.
  - cbn [fold_left entries flat_map length]. rewrite Nat.add_0_r.
    destruct (1 <=? k)%nat; rewrite app_nil_r; reflexivity.
  - change (entries (r :: rs))
      with (map (pair (req_schema r)) (req_data r) ++ entries rs) in *.
    cbn [fold_left]. rewrite (rehash_request_spec _ _ _ _ _ _ _ H).
    apply hit_only_at_app in H. rewrite length_map in H.
    rewrite (IH _ _ _ H).
    rewrite foldHash_app, length_app, length_map, Nat.add_assoc.
    rewrite remaining_cons, Nat.sub_add_distr, <- app_assoc.
    destruct (1 <=? k)%nat; rewrite ?app_nil_r; reflexivity.
Qed.

Lemma no_hit_from_prefixes vhash requests :
  (forall j, (1 <= j <= length (entries requests))%nat ->
             prefix_commitment requests j <> vhash) ->
  hit_only_at vhash 0 HashZero 0 (entries requests).
Proof.
  intros H j Hj. split; [| lia].
  intro Heq. exfalso. exact (H j Hj Heq).
Qed.

(** C8. Verify round-trip: the fold of [hash] from genesis over every
    entry of every batch, in collection order, is accepted by [verify] on
    the same collection. *)
Theorem verify_roundtrip requests :
  verify (foldHash HashZero (entries requests)) requests = true.
Proof. apply verify_spec. reflexivity. Qed.

(** C6. When the running commitment never equals the target, [rehash]
    returns the input collection unchanged if the target is genesis, and
    throws the mismatch error otherwise. *)
Theorem rehash_without_match vhash requests :
  (forall j, (1 <= j <= length (entries requests))%nat ->
             prefix_commitment requests j <> vhash) ->
  rehash vhash requests
  = if (vhash =? HashZero)%string then Returned requests
    else Thrown (mkError "verification hash mismatch").
Proof.
  intro H. apply no_hit_from_prefixes in H.
  pose proof (rehash_requests_spec vhash 0 requests HashZero 0 [] H) as E.
  change (reached 0 0) with false in E.
  unfold rehash. rewrite E. reflexivity.
Qed.

(** C3, amended. Rehash round-trip: when the commitment after [k] entries
    collides with no other prefix commitment, [rehash] returns for
    [k >= 1] the entries after position [k] under their schemas with every
    empty batch omitted, and for [k = 0] the input collection itself. *)
Theorem rehash_roundtrip requests k :
  (k <= length (entries requests))%nat ->
  (forall j, (j <= length (entries requests))%nat -> j <> k ->
             prefix_commitment requests j <> prefix_commitment requests k) ->
  rehash (prefix_commitment requests k) requests
  = Returned (if (k =? 0)%nat then requests else remaining k requests).
Proof.
  intros Hk Hfree. destruct k as [| k].
  - assert (hit_only_at (prefix_commitment requests 0) 0 HashZero 0
              (entries requests)) as H.
    { apply no_hit_from_prefixes. intros j Hj. apply Hfree; lia. }
    pose proof (rehash_requests_spec _ 0 requests HashZero 0 [] H) as E.
    change (reached 0 0) with false in E.
    unfold rehash. rewrite E. reflexivity.
  - assert (hit_only_at (prefix_commitment requests (S k)) (S k) HashZero 0
              (entries requests)) as H.
    { intros j Hj. cbn [Nat.add]. split.
      - intro Heq. destruct (Nat.eq_dec j (S k)) as [E | E]; [exact E |].
        exfalso. apply (Hfree j); [lia | exact E | exact Heq].
      - intros ->. reflexivity. }
    pose proof (rehash_requests_spec _ (S k) requests HashZero 0 [] H) as E.
    change (reached (S k) 0) with false in E.
    replace (reached (S k) (0 + length (entries requests))) with true in E
      by (symmetry; unfold reached; apply andb_true_iff;
          split; apply Nat.leb_le; lia).
    unfold rehash. rewrite E.
    cbn [negb app Nat.eqb Nat.leb]. rewrite Nat.sub_0_r. reflexivity.
Qed.

End Chain.

(** C3 as stated fails when nothing is committed yet and the collection
    holds an empty batch: the batch is returned, not omitted. *)
Lemma rehash_roundtrip_keeps_empty_batches :
  (0 <= length (entries Sample.with_empty_batch))%nat
  /\ (forall j, (j <= length (entries Sample.with_empty_batch))%nat -> j <> 0%nat ->
        prefix_commitment Sample.toy_keccak Sample.toy_encode
          Sample.with_empty_batch j
        <> prefix_commitment Sample.toy_keccak Sample.toy_encode
             Sample.with_empty_batch 0)
  /\ rehash Sample.toy_keccak Sample.toy_encode
       (prefix_commitment Sample.toy_keccak Sample.toy_encode
          Sample.with_empty_batch 0)
       Sample.with_empty_batch
     <> Returned (remaining 0 Sample.with_empty_batch).
Proof.
  split; [apply Nat.le_0_l |]. split.
  - intros j Hj Hne. cbn in Hj.
    assert (j = 1%nat) as -> by lia. vm_compute. discriminate.
  - vm_compute. discriminate.
Qed.

Lemma rehash_roundtrip_witness :
  rehash Sample.toy_keccak Sample.toy_encode
    (prefix_commitment Sample.toy_keccak Sample.toy_encode Sample.two_batches 1)
    Sample.two_batches
  = Returned [mkRequest "0xA" [Sample.r3]; mkRequest "0xB" [Sample.r2]].
Proof.
  refine (rehash_roundtrip Sample.toy_keccak Sample.toy_encode
            Sample.two_batches 1 _ _).
  - vm_compute. lia.
  - intros j Hj Hne. cbn in Hj.
    assert (j = 0 \/ j = 2 \/ j = 3)%nat as [-> | [-> | ->]] by lia;
      vm_compute; discriminate.
Defined.

Lemma rehash_without_match_witness :
  rehash Sample.toy_keccak Sample.toy_encode HashZero Sample.two_batches
  = Returned Sample.two_batches
  /\ rehash Sample.toy_keccak Sample.toy_encode "0xdead" Sample.two_batches
     = Thrown (mkError "verification hash mismatch").
Proof.
  split.
  - refine (rehash_without_match Sample.toy_keccak Sample.toy_encode
              HashZero Sample.two_batches _).
    intros j Hj. cbn in Hj.
    assert (j = 1 \/ j = 2 \/ j = 3)%nat as [-> | [-> | ->]] by lia;
      vm_compute; discriminate.
  - refine (rehash_without_match Sample.toy_keccak Sample.toy_encode
              "0xdead" Sample.two_batches _).
    intros j Hj. cbn in Hj.
    assert (j = 1 \/ j = 2 \/ j = 3)%nat as [-> | [-> | ->]] by lia;
      vm_compute; discriminate.
Defined.

(** C9. On a collection without entries, [verify] accepts exactly the
    genesis commitment, whatever the hash function is. *)
Theorem verify_empty_collection keccak256 abi_encode vhash requests :
  Forall (fun r => req_data r = []) requests ->
  (verify keccak256 abi_encode vhash requests = true <-> vhash = HashZero)
  /\ (forall keccak256' abi_encode',
        verify keccak256' abi_encode' vhash requests
        = verify keccak256 abi_encode vhash requests).
Proof.
  intro Hempty.
  assert (entries requests = []) as He.
  { induction Hempty as [| r rs Hr _ IH]; [reflexivity |].
    unfold entries in *. simpl. rewrite Hr, IH. reflexivity. }
  assert (forall kc ae, verify kc ae vhash requests = (HashZero =? vhash)%string)
    as Hv.
  { intros kc ae. unfold verify. rewrite verify_loops_fold, He. reflexivity. }
  split.
  - rewrite Hv, String.eqb_eq. split; intro; congruence.
  - intros kc ae. rewrite !Hv. reflexivity.
Qed.

Lemma verify_empty_collection_witness :
  (verify Sample.toy_keccak Sample.toy_encode HashZero
     [mkRequest "0xA" []; mkRequest "0xB" []] = true <-> HashZero = HashZero)
  /\ (forall keccak256' abi_encode',
        verify keccak256' abi_encode' HashZero
          [mkRequest "0xA" []; mkRequest "0xB" []]
        = verify Sample.toy_keccak Sample.toy_encode HashZero
            [mkRequest "0xA" []; mkRequest "0xB" []]).
Proof.
  apply (verify_empty_collection Sample.toy_keccak Sample.toy_encode HashZero
           [mkRequest "0xA" []; mkRequest "0xB" []]).
  repeat constructor.
Defined.

(** ** Properties of pack *)

Lemma first_seen_In s l : In s (first_seen l) <-> In s l.
Proof.
  induction l as [| x l IH]; simpl; [tauto |].
  rewrite filter_In, IH, negb_true_iff, String.eqb_neq.
  destruct (string_dec x s); intuition congruence.
Qed.

Lemma first_seen_NoDup l : NoDup (first_seen l).
Proof.
  induction l as [| x l IH]; simpl; constructor.
  - rewrite filter_In, negb_true_iff, String.eqb_neq. tauto.
  - apply NoDup_filter, IH.
Qed.

Lemma first_seen_snoc l s :
  first_seen (l ++ [s])
  = if in_dec string_dec s l then first_seen l else first_seen l ++ [s].
Proof.
  induction l as [| x l IH]; [reflexivity |].
  cbn [app first_seen]. rewrite IH.
  destruct (in_dec string_dec s (x :: l)) as [Hin | Hout];
    destruct (in_dec string_dec s l) as [Hin' | Hout']; try reflexivity.
  - destruct Hin as [-> | Hin]; [| contradiction].
    rewrite filter_app. cbn [filter]. rewrite String.eqb_refl.
    cbn [negb]. rewrite app_nil_r. reflexivity.
  - exfalso. apply Hout. right. exact Hin'.
  - rewrite filter_app. cbn [filter].
    replace (s =? x)%string with false; [reflexivity |].
    symmetry. apply String.eqb_neq. intros ->. apply Hout. left. reflexivity.
Qed.

Lemma group_snoc_same l a :
  group (l ++ [a]) (att_schema a)
  = mkRequest (att_schema a)
      (req_data (group l (att_schema a)) ++ [request_data_of a]).
Proof.
  unfold group. cbn [req_data]. rewrite filter_app, map_app.
  cbn [filter]. rewrite String.eqb_refl. reflexivity.
Qed.

Lemma group_snoc_other l a s :
  s <> att_schema a -> group (l ++ [a]) s = group l s.
Proof.
  intro Hne. unfold group. rewrite filter_app. cbn [filter].
  replace (att_schema a =? s)%string with false
    by (symmetry; apply String.eqb_neq; congruence).
  rewrite app_nil_r. reflexivity.
Qed.

(** [push_data] walks past the batches of other schemas. *)
Lemma push_data_skip s d l ss tail :
  ~ In s ss ->
  push_data s d (map (group l) ss ++ tail)
  = map (group l) ss ++ push_data s d tail.
Proof.
  induction ss as [| x ss IH]; intro Hout; [reflexivity |].
  cbn [map app push_data group req_schema].
  replace (x =? s)%string with false
    by (symmetry; apply String.eqb_neq; intros ->; apply Hout; left; reflexivity).
  fold (group l x). rewrite IH; [reflexivity |].
  intro Hin. apply Hout. right. exact Hin.
Qed.

Lemma map_group_snoc l a ss :
  ~ In (att_schema a) ss -> map (group (l ++ [a])) ss = map (group l) ss.
Proof.
  intro Hout. apply map_ext_in. intros s Hs. apply group_snoc_other.
  intros ->. exact (Hout Hs).
Qed.

Lemma push_data_group l a ss :
  NoDup ss -> In (att_schema a) ss ->
  push_data (att_schema a) (request_data_of a) (map (group l) ss)
  = map (group (l ++ [a])) ss.
Proof.
  intros Hnd Hin. apply in_split in Hin. destruct Hin as [pre [post ->]].
  apply NoDup_remove_2 in Hnd.
  assert (~ In (att_schema a) pre /\ ~ In (att_schema a) post) as [Hpre Hpost]
    by (split; intro; apply Hnd, in_or_app; tauto).
  rewrite !map_app. cbn [map]. rewrite push_data_skip by exact Hpre.
  rewrite !map_group_snoc by assumption.
  cbn [push_data]. unfold group at 2. cbn [req_schema].
  rewrite String.eqb_refl, group_snoc_same. reflexivity.
Qed.

Lemma find_group_schema l ss s :
  find (fun e => (req_schema e =? s)%string) (map (group l) ss)
  = if in_dec string_dec s ss then Some (group l s) else None.
Proof.
  induction ss as [| x ss IH]; [reflexivity |].
  cbn [map find group req_schema]. fold (group l x).
  destruct (String.eqb_spec x s) as [-> | Hne].
  - destruct (in_dec string_dec s (s :: ss)) as [_ | Hout]; [reflexivity |].
    exfalso. apply Hout. left. reflexivity.
  - rewrite IH.
    destruct (in_dec string_dec s ss) as [Hin | Hout];
      destruct (in_dec string_dec s (x :: ss)) as [Hin' | Hout'];
      try reflexivity.
    + exfalso. apply Hout'. right. exact Hin.
    + destruct Hin' as [E | Hin']; [congruence | contradiction].
Qed.

Lemma filter_unseen_schema l s :
  ~ In s (map att_schema l) ->
  filter (fun a => (att_schema a =? s)%string) l = [].
Proof.
  induction l as [| a l IH]; intro Hout; [reflexivity |].
  cbn [filter]. destruct (String.eqb_spec (att_schema a) s) as [E | _].
  - exfalso. apply Hout. left. exact E.
  - apply IH. intro Hin. apply Hout. right. exact Hin.
Qed.

(** [pack] builds one batch per schema, in the order of first occurrence,
    holding the records of that schema in input order. *)
Lemma pack_grouped l :
  pack l = map (group l) (first_seen (map att_schema l)).
Proof.
  induction l as [| a l IH] using rev_ind; [reflexivity |].
  unfold pack in *. rewrite fold_left_app. cbn [fold_left]. rewrite IH.
  unfold pack_step. rewrite find_group_schema, map_app. cbn [map].
  rewrite first_seen_snoc.
  destruct (in_dec string_dec (att_schema a) (map att_schema l)) as [Hin | Hout].
  - destruct (in_dec string_dec (att_schema a) (first_seen (map att_schema l)))
      as [Hin' | Hout']; [| exfalso; apply Hout', first_seen_In, Hin].
    apply push_data_group; [apply first_seen_NoDup | exact Hin'].
  - destruct (in_dec string_dec (att_schema a) (first_seen (map att_schema l)))
      as [Hin' | Hout']; [exfalso; apply Hout, first_seen_In, Hin' |].
    rewrite push_data_skip by exact Hout'.
    rewrite map_app, map_group_snoc by exact Hout'.
    cbn [push_data req_schema map]. rewrite String.eqb_refl, group_snoc_same.
    unfold group. cbn [req_data app].
    rewrite (filter_unseen_schema _ _ Hout). reflexivity.
Qed.


Lemma entries_app l1 l2 : entries (l1 ++ l2) = entries l1 ++ entries l2.
Proof. apply flat_map_app. Qed.

(** Pushing an entry adds it to the flattened sequence and moves nothing
    else. *)
Lemma entries_push_data s d acc :
  In s (map req_schema acc) ->
  Permutation (entries (push_data s d acc)) (entries acc ++ [(s, d)]).
Proof.
  induction acc as [| e rest IH]; intro Hin; [destruct Hin |].
  cbn [push_data]. destruct (String.eqb_spec (req_schema e) s) as [E | Hne].
  - change (entries (mkRequest (req_schema e) (req_data e ++ [d]) :: rest))
      with (map (pair (req_schema e)) (req_data e ++ [d]) ++ entries rest).
    change (entries (e :: rest))
      with (map (pair (req_schema e)) (req_data e) ++ entries rest).
    rewrite map_app, E, <- !app_assoc. apply Permutation_app_head.
    apply Permutation_app_comm.
  - change (entries (e :: push_data s d rest))
      with (map (pair (req_schema e)) (req_data e) ++ entries (push_data s d rest)).
    change (entries (e :: rest))
      with (map (pair (req_schema e)) (req_data e) ++ entries rest).
    rewrite <- app_assoc. apply Permutation_app_head. apply IH.
    destruct Hin as [E | Hin]; [contradiction | exact Hin].
Qed.

Lemma entries_pack_step acc a :
  Permutation (entries (pack_step acc a)) (entries acc ++ [tagged a]).
Proof.
  unfold pack_step, tagged.
  destruct (find _ acc) as [e |] eqn:Hfind.
  - apply entries_push_data. apply find_some in Hfind.
    destruct Hfind as [Hin E]. apply String.eqb_eq in E. rewrite <- E.
    apply in_map. exact Hin.
  - rewrite entries_push_data.
    + rewrite entries_app. cbn. rewrite !app_nil_r. reflexivity.
    + rewrite map_app. apply in_or_app. right. left. reflexivity.
Qed.

Lemma entries_pack l : Permutation (entries (pack l)) (map tagged l).
Proof.
  induction l as [| a l IH] using rev_ind; [reflexivity |].
  unfold pack in *. rewrite fold_left_app, map_app. cbn [fold_left map].
  rewrite entries_pack_step. apply Permutation_app_tail. exact IH.
Qed.

(** C5. Grouping correctness: the schemas of the batches of [pack] are
    distinct and in the order of first occurrence, every batch holds exactly
    the records of its schema in input order, and the flattened output is a
    permutation of the input. *)
Theorem pack_grouping l :
  NoDup (map req_schema (pack l))
  /\ map req_schema (pack l) = first_seen (map att_schema l)
  /\ (forall b, In b (pack l) ->
       req_data b
       = map request_data_of
           (filter (fun a => (att_schema a =? req_schema b)%string) l))
  /\ Permutation (entries (pack l)) (map tagged l).
Proof.
  assert (map req_schema (pack l) = first_seen (map att_schema l)) as Hs.
  { rewrite pack_grouped, map_map. cbn [group req_schema]. apply map_id. }
  split; [rewrite Hs; apply first_seen_NoDup |].
  split; [exact Hs |].
  split; [| apply entries_pack].
  intros b Hb. rewrite pack_grouped in Hb. apply in_map_iff in Hb.
  destruct Hb as [s [<- _]]. reflexivity.
Qed.

(** C10. Every entry of the output of [pack] comes from a record of its
    batch's schema, carries the zero address when that record's recipient is
    absent or empty and the recipient itself otherwise, has its fixed fields
    set, and never has an empty recipient. *)
Theorem pack_entry_fields l b e :
  In b (pack l) -> In e (req_data b) ->
  expirationTime e = 0 /\ revocable e = false /\ refUID e = HashZero
  /\ value e = 0 /\ recipient e <> ""
  /\ exists a, In a l /\ att_schema a = req_schema b /\ data e = att_data a
       /\ (att_recipient a = None \/ att_recipient a = Some "" ->
           recipient e = AddressZero)
       /\ (forall r, att_recipient a = Some r -> r <> "" -> recipient e = r).
Proof.
  intros Hb He. rewrite pack_grouped in Hb. apply in_map_iff in Hb.
  destruct Hb as [s [<- _]]. cbn [group req_data req_schema] in *.
  apply in_map_iff in He. destruct He as [a [<- Ha]].
  apply filter_In in Ha. destruct Ha as [Ha Hs]. apply String.eqb_eq in Hs.
  unfold request_data_of. cbn.
  repeat (split; [reflexivity |]). split.
  - destruct (att_recipient a) as [r |]; [| discriminate].
    destruct (String.eqb_spec r ""); [discriminate | assumption].
  - exists a. repeat (split; [assumption || reflexivity |]). split.
    + intros [-> | ->]; reflexivity.
    + intros r -> Hr. destruct (String.eqb_spec r ""); [contradiction | reflexivity].
Qed.

(** ** Properties of slice *)

(** One turn of the inner loop. *)
Lemma search_step est limit request start lo hi :
  search est limit request start lo hi
  = if lo <=? hi then
      match probe est limit request start lo hi with
      | inl (lo', hi') => search est limit request start lo' hi'
      | inr err => inr err
      end
    else inl lo.
Proof.
  funelim (search est limit request start lo hi).
  - rewrite (proj2 (Z.leb_gt lo hi)) by lia. reflexivity.
  - rewrite (proj2 (Z.leb_le lo hi) Hle), Hp. reflexivity.
  - rewrite (proj2 (Z.leb_le lo hi) Hle), e. reflexivity.
Qed.

Section SliceProperties.

Variable est : estimator.
Variable limit : Z.
Variable request : MultiAttestationRequest.

Lemma mid_between lo hi : lo <= hi -> lo <= (lo + hi) / 2 <= hi.
Proof.
  intro H. split; [apply Z.div_le_lower_bound | apply Z.div_le_upper_bound]; lia.
Qed.

(** The three ways a probe ends. *)
Lemma probe_cases start lo hi :
  (fits est limit (range request start ((lo + hi) / 2))
   /\ probe est limit request start lo hi = inl ((lo + hi) / 2 + 1, hi))
  \/ (too_big est limit (range request start ((lo + hi) / 2))
      /\ probe est limit request start lo hi = inl (lo, (lo + hi) / 2 - 1))
  \/ (exists err, est (range request start ((lo + hi) / 2)) = inr err
                  /\ exceeds_or_cannot_estimate err = false
                  /\ probe est limit request start lo hi = inr err).
Proof.
  unfold probe, fits, too_big. fold (range request start ((lo + hi) / 2)).
  destruct (est (range request start ((lo + hi) / 2))) as [c | err].
  - destruct (Z.gtb_spec c (limit - 100000)) as [Hgt | Hle].
    + right. left. split; [| reflexivity]. left. exists c. split; [reflexivity | lia].
    + left. split; [| reflexivity]. exists c. split; [reflexivity | lia].
  - destruct (exceeds_or_cannot_estimate err) eqn:Hc.
    + right. left. split; [| reflexivity]. right. exists err. tauto.
    + right. right. exists err. tauto.
Qed.

(** Induction along the inner loop: the interval shrinks at every probe. *)
Lemma search_induction (start : Z) (P : Z -> Z -> Z + Error -> Prop) :
  (forall lo hi, hi < lo -> P lo hi (inl lo)) ->
  (forall lo hi, lo <= hi -> fits est limit (range request start ((lo + hi) / 2)) ->
     P ((lo + hi) / 2 + 1) hi
       (search est limit request start ((lo + hi) / 2 + 1) hi) ->
     P lo hi (search est limit request start ((lo + hi) / 2 + 1) hi)) ->
  (forall lo hi, lo <= hi -> too_big est limit (range request start ((lo + hi) / 2)) ->
     P lo ((lo + hi) / 2 - 1)
       (search est limit request start lo ((lo + hi) / 2 - 1)) ->
     P lo hi (search est limit request start lo ((lo + hi) / 2 - 1))) ->
  (forall lo hi err, lo <= hi ->
     est (range request start ((lo + hi) / 2)) = inr err ->
     exceeds_or_cannot_estimate err = false ->
     P lo hi (inr err)) ->
  forall lo hi, P lo hi (search est limit request start lo hi).
Proof.
  intros Hexit Hfit Hbig Herr lo hi.
  remember (Z.to_nat (hi + 1 - lo)) as n eqn:Hn.
  revert lo hi Hn. induction n as [n IH] using lt_wf_ind. intros lo hi Hn.
  rewrite search_step. destruct (Z.leb_spec lo hi) as [Hle | Hgt].
  - pose proof (mid_between lo hi Hle) as Hmid.
    destruct (probe_cases start lo hi)
      as [[Hf ->] | [[Hb ->] | [err [He [Hc ->]]]]].
    + apply Hfit; [exact Hle | exact Hf |].
      apply (IH (Z.to_nat (hi + 1 - ((lo + hi) / 2 + 1)))); [lia | reflexivity].
    + apply Hbig; [exact Hle | exact Hb |].
      apply (IH (Z.to_nat ((lo + hi) / 2 - 1 + 1 - lo))); [lia | reflexivity].
    + apply Herr; assumption.
  - apply Hexit. exact Hgt.
Qed.

(** Where the inner loop ends: at its first [lo], or just above a range
    that fits; and the error it leaves with is one the estimator raised
    and the [catch] clause does not tolerate. *)
Lemma search_result start lo hi :
  match search est limit request start lo hi with
  | inl lo' =>
      lo <= lo'
      /\ (lo' = lo
          \/ (fits est limit (range request start (lo' - 1))
              /\ lo <= lo' - 1 <= hi))
  | inr err =>
      exceeds_or_cannot_estimate err = false
      /\ exists mid, est (range request start mid) = inr err
  end.
Proof.
  apply search_induction; clear lo hi.
  - intros lo hi _. split; [lia | left; reflexivity].
  - intros lo hi Hle Hfit IH. pose proof (mid_between lo hi Hle) as Hmid.
    destruct (search est limit request start ((lo + hi) / 2 + 1) hi)
      as [lo' | err]; [| exact IH].
    destruct IH as [Hge [-> | [Hf Hb]]].
    + split; [lia |]. right.
      replace ((lo + hi) / 2 + 1 - 1) with ((lo + hi) / 2) by lia.
      split; [exact Hfit | lia].
    + split; [lia |]. right. split; [exact Hf | lia].
  - intros lo hi Hle _ IH. pose proof (mid_between lo hi Hle) as Hmid.
    destruct (search est limit request start lo ((lo + hi) / 2 - 1))
      as [lo' | err]; [| exact IH].
    destruct IH as [Hge [-> | [Hf Hb]]].
    + split; [lia | left; reflexivity].
    + split; [lia |]. right. split; [exact Hf | lia].
  - intros lo hi err _ He Hc. split; [exact Hc |].
    exists ((lo + hi) / 2). exact He.
Qed.

Lemma fits_not_too_big r : fits est limit r -> too_big est limit r -> False.
Proof.
  intros [c [Hc Hle]] [[c' [Hc' Hgt]] | [err [He _]]]; rewrite Hc in *.
  - inversion Hc'. lia.
  - discriminate.
Qed.

(** The inner loop leaves [lo] where it started only when the estimator
    rejected the range that ends there. *)
Lemma search_stuck_rejected start lo hi :
  lo <= hi -> search est limit request start lo hi = inl lo ->
  too_big est limit (range request start lo).
Proof.
  revert lo hi.
  apply (search_induction start
           (fun lo hi res => lo <= hi -> res = inl lo ->
                             too_big est limit (range request start lo))).
  - intros lo hi Hgt Hle. lia.
  - intros lo hi Hle _ _ _ Hres. pose proof (mid_between lo hi Hle) as Hmid.
    pose proof (search_result start ((lo + hi) / 2 + 1) hi) as Hr.
    rewrite Hres in Hr. lia.
  - intros lo hi Hle Hbig IH _ Hres. pose proof (mid_between lo hi Hle) as Hmid.
    destruct (Z_le_gt_dec lo ((lo + hi) / 2 - 1)) as [Hin | Hout].
    + apply IH; assumption.
    + assert ((lo + hi) / 2 = lo) as E by lia. rewrite E in Hbig. exact Hbig.
  - intros lo hi err _ _ _ _ Hres. discriminate.
Qed.

(** When the estimator rejects every range, the inner loop never moves
    [lo]. *)
Lemma search_all_rejected start lo hi :
  (forall mid, too_big est limit (range request start mid)) ->
  search est limit request start lo hi = inl lo.
Proof.
  intro Hall. apply search_induction; clear lo hi.
  - reflexivity.
  - intros lo hi _ Hfit _. destruct (fits_not_too_big _ Hfit (Hall _)).
  - intros lo hi _ _ IH. exact IH.
  - intros lo hi err _ He Hc.
    destruct (Hall ((lo + hi) / 2)) as [[c [Hc' _]] | [err' [He' Hc']]];
      rewrite He in *; [discriminate |].
    inversion He'; subst. congruence.
Qed.

Local Abbreviation len := (Z.of_nat (length (req_data request))).

Lemma slice_request_step fuel start sliced :
  slice_request (S fuel) est limit request start sliced
  = if start <? len then
      match search est limit request start start len with
      | inr err => Thrown err
      | inl lo =>
          slice_request fuel est limit request lo
            (sliced ++ [range request start (Z.max start (lo - 1))])
      end
    else Returned sliced.
Proof. reflexivity. Qed.

Lemma slice_request_done fuel start sliced :
  len <= start ->
  slice_request fuel est limit request start sliced = Returned sliced.
Proof.
  intro H. destruct fuel; cbn [slice_request];
    rewrite (proj2 (Z.ltb_ge start len) H); reflexivity.
Qed.

(** The outer loop never ends once the inner loop leaves [start] where it
    was: every turn repeats the last one, with one more empty slice. *)
Lemma slice_request_stuck start :
  start < len ->
  search est limit request start start len = inl start ->
  forall fuel sliced,
    slice_request fuel est limit request start sliced = OutOfFuel.
Proof.
  intros Hlt Hs fuel. induction fuel as [| fuel IH]; intro sliced.
  - cbn [slice_request]. rewrite (proj2 (Z.ltb_lt start len) Hlt). reflexivity.
  - rewrite slice_request_step, (proj2 (Z.ltb_lt start len) Hlt), Hs. apply IH.
Qed.

(** Every slice of a returned result was accepted by the estimator. *)
Lemma slice_request_fits fuel start sliced out :
  slice_request fuel est limit request start sliced = Returned out ->
  Forall (fits est limit) sliced -> Forall (fits est limit) out.
Proof.
  revert start sliced. induction fuel as [| fuel IH]; intros start sliced H Hs.
  - cbn [slice_request] in H. destruct (start <? len); [discriminate |].
    inversion H; subst. exact Hs.
  - rewrite slice_request_step in H.
    destruct (Z.ltb_spec start len) as [Hlt | Hge];
      [| inversion H; subst; exact Hs].
    pose proof (search_result start start len) as Hr.
    destruct (search est limit request start start len) as [lo | err] eqn:Hse;
      [| discriminate].
    destruct Hr as [Hge [-> | [Hf Hb]]].
    + rewrite (slice_request_stuck start Hlt Hse) in H. discriminate.
    + apply (IH _ _ H). apply Forall_app. split; [exact Hs |].
      constructor; [| constructor].
      rewrite Z.max_r by lia. exact Hf.
Qed.


Lemma array_slice_empty {A : Type} (l : list A) (i : Z) :
  array_slice l i i = [].
Proof. unfold array_slice. rewrite Z.sub_diag. reflexivity. Qed.

(** When the estimator accepts the empty range, every turn of the outer
    loop moves [start] forward, and the loop ends within as many turns as
    there are entries left. *)
Lemma slice_request_terminates fuel start sliced :
  fits est limit (mkRequest (req_schema request) []) ->
  (Z.to_nat (len - start) <= fuel)%nat ->
  slice_request fuel est limit request start sliced <> OutOfFuel.
Proof.
  intro Hempty. revert start sliced.
  induction fuel as [| fuel IH]; intros start sliced Hfuel.
  - rewrite slice_request_done by lia. discriminate.
  - rewrite slice_request_step.
    destruct (Z.ltb_spec start len) as [Hlt | Hge]; [| discriminate].
    pose proof (search_result start start len) as Hr.
    destruct (search est limit request start start len) as [lo | err] eqn:Hse;
      [| discriminate].
    destruct Hr as [Hge [-> | [_ Hb]]].
    + exfalso. apply (fits_not_too_big _ Hempty).
      pose proof (search_stuck_rejected start start len (Z.lt_le_incl _ _ Hlt) Hse)
        as Hbig.
      unfold range in Hbig. rewrite array_slice_empty in Hbig. exact Hbig.
    + apply IH. lia.
Qed.

End SliceProperties.






Lemma slice_requests_fits fuel est limit requests sliced out :
  slice_requests fuel est limit requests sliced = Returned out ->
  Forall (fits est limit) sliced -> Forall (fits est limit) out.
Proof.
  revert sliced. induction requests as [| r rs IH]; intros sliced H Hs.
  - inversion H; subst. exact Hs.
  - cbn [slice_requests] in H.
    destruct (slice_request fuel est limit r 0 sliced) as [mid | |] eqn:Hr;
      try discriminate.
    apply (IH _ H). apply (slice_request_fits _ _ _ _ _ _ _ Hr Hs).
Qed.


(** On a request that has entries, the outer loop never ends when the
    estimator rejects every range: no number of turns is enough. *)
Lemma slice_request_diverges est limit request :
  (forall r, too_big est limit r) -> req_data request <> [] ->
  forall fuel sliced, slice_request fuel est limit request 0 sliced = OutOfFuel.
Proof.
  intros Hall Hne. apply slice_request_stuck.
  - destruct (req_data request); [contradiction | cbn [length]; lia].
  - apply search_all_rejected. intro mid. apply Hall.
Qed.

(** When every range fits, the request comes back as one slice. *)
Example slice_all_fits :
  slice 1 (mkAttester (Some Sample.always_fits) Sample.block_limit)
    [mkRequest "0xA" [Sample.r1; Sample.r3]]
  = Returned [mkRequest "0xA" [Sample.r1; Sample.r3]].
Proof. vm_compute. reflexivity. Qed.

(** When only the empty range fits, the slice is empty and the entry is
    passed over. *)
Example slice_emits_empty_batch :
  slice 1 (mkAttester (Some (fun r => match req_data r with
                                      | [] => inl 21000
                                      | _ => inr (mkError "exceeds gas limit")
                                      end)) Sample.block_limit)
    [mkRequest "0xB" [Sample.r2]]
  = Returned [mkRequest "0xB" []].
Proof. vm_compute. reflexivity. Qed.

(** C1. Slice completeness fails on the code: with an estimator that
    rejects two entries together, the search on [r1; r3] ends at [lo = 2],
    the slice [0, 1) is emitted and [start] jumps to 2, so [r3] is in no
    slice, however many turns the loop is given. *)
Theorem slice_drops_an_entry fuel :
  slice (S fuel) (mkAttester (Some Sample.one_at_a_time) Sample.block_limit)
    [mkRequest "0xA" [Sample.r1; Sample.r3]]
  = Returned [mkRequest "0xA" [Sample.r1]]
  /\ flat_map req_data [mkRequest "0xA" [Sample.r1]] <> [Sample.r1; Sample.r3].
Proof.
  split; [| discriminate].
  unfold slice. cbn [estimateGas_attest gasLimit slice_requests].
  rewrite slice_request_step.
  replace (search Sample.one_at_a_time Sample.block_limit
             (mkRequest "0xA" [Sample.r1; Sample.r3]) 0 0
             (Z.of_nat (length (req_data (mkRequest "0xA" [Sample.r1; Sample.r3])))))
    with (@inl Z Error 2) by (vm_compute; reflexivity).
  cbn [req_data length]. change (0 <? Z.of_nat 2) with true. cbv iota.
  rewrite slice_request_done by (cbn; lia).
  reflexivity.
Qed.

(** C2. Slice termination fails on the code: when every estimate reverts
    with "cannot estimate gas", the search leaves [lo] at [start], an empty
    slice is emitted and [start] is set to itself; the loop never ends. *)
Theorem slice_never_returns_when_nothing_fits fuel :
  slice fuel (mkAttester (Some Sample.always_reverts) Sample.block_limit)
    [mkRequest "0xA" [Sample.r1]]
  = OutOfFuel.
Proof.
  unfold slice. cbn [estimateGas_attest gasLimit slice_requests].
  rewrite slice_request_diverges; [reflexivity | | discriminate].
  intro r. right. eexists. split; reflexivity.
Qed.

(** C4. Slice bound fails on the code at the boundary: the source says
    "Estimate must be less than block gas limit with 100k buffer", but the
    test [estimate.gt(limit - 100000)] lets an estimate equal to the limit
    less the buffer through, and the slice is returned. *)
Lemma slice_accepts_at_the_margin :
  slice 1 (mkAttester (Some Sample.at_the_margin) Sample.block_limit)
    [mkRequest "0xA" [Sample.r1]]
  = Returned [mkRequest "0xA" [Sample.r1]]
  /\ Sample.at_the_margin (mkRequest "0xA" [Sample.r1])
     = inl (Sample.block_limit - 100000)
  /\ ~ (Sample.block_limit - 100000 < Sample.block_limit - 100000).
Proof.
  split; [vm_compute; reflexivity |]. split; [reflexivity | lia].
Qed.

(** X16. Every slice of a returned result was accepted in the search: by
    the estimator used there it has an estimate, not an error, and that
    estimate is not above the block gas limit less 100000. *)
Theorem slice_within_margin fuel attester est requests out :
  estimateGas_attest attester = Some est ->
  slice fuel attester requests = Returned out ->
  forall b, In b out ->
    exists estimate, est b = inl estimate
                     /\ estimate <= gasLimit attester - 100000.
Proof.
  intros Hest H b Hb. unfold slice in H. rewrite Hest in H.
  pose proof (slice_requests_fits _ _ _ _ _ _ H (Forall_nil _)) as Hall.
  rewrite Forall_forall in Hall. exact (Hall b Hb).
Qed.

Lemma slice_within_margin_witness :
  exists estimate,
    Sample.one_at_a_time (mkRequest "0xA" [Sample.r1]) = inl estimate
    /\ estimate <= Sample.block_limit - 100000.
Proof.
  apply (slice_within_margin 1
           (mkAttester (Some Sample.one_at_a_time) Sample.block_limit)
           Sample.one_at_a_time
           [mkRequest "0xA" [Sample.r1; Sample.r3]]
           [mkRequest "0xA" [Sample.r1]]).
  - reflexivity.
  - vm_compute. reflexivity.
  - left. reflexivity.
Defined.



Lemma pack_entry_fields_witness :
  expirationTime (request_data_of Sample.unaddressed) = 0
  /\ revocable (request_data_of Sample.unaddressed) = false
  /\ refUID (request_data_of Sample.unaddressed) = HashZero
  /\ value (request_data_of Sample.unaddressed) = 0
  /\ recipient (request_data_of Sample.unaddressed) <> ""%string
  /\ exists a, In a Sample.records
       /\ att_schema a = "0xB"%string
       /\ data (request_data_of Sample.unaddressed) = att_data a
       /\ (att_recipient a = None \/ att_recipient a = Some ""%string ->
           recipient (request_data_of Sample.unaddressed) = AddressZero)
       /\ (forall r, att_recipient a = Some r -> r <> ""%string ->
           recipient (request_data_of Sample.unaddressed) = r).
Proof.
  apply (pack_entry_fields Sample.records
           (mkRequest "0xB" [request_data_of Sample.unaddressed])
           (request_data_of Sample.unaddressed)).
  - vm_compute. right. left. reflexivity.
  - left. reflexivity.
Defined.

Lemma pack_grouping_witness :
  pack Sample.records
  = [mkRequest "0xA" [request_data_of Sample.addressed;
                      request_data_of Sample.blank];
     mkRequest "0xB" [request_data_of Sample.unaddressed]]
  /\ Permutation (entries (pack Sample.records)) (map tagged Sample.records).
Proof.
  split; [reflexivity |].
  apply (pack_grouping Sample.records).
Defined.

(** ** Subsequences *)

Lemma subsequence_refl {A : Type} (l : list A) : subsequence l l.
Proof. induction l; constructor; assumption. Qed.

Lemma subsequence_nil_l {A : Type} (l : list A) : subsequence [] l.
Proof. induction l; constructor; assumption. Qed.

Lemma subsequence_app {A : Type} (l1 l1' l2 l2' : list A) :
  subsequence l1 l1' -> subsequence l2 l2' ->
  subsequence (l1 ++ l2) (l1' ++ l2').
Proof.
  intros H1 H2. induction H1; cbn [app]; [exact H2 | |]; constructor; assumption.
Qed.

Lemma subsequence_map {A B : Type} (f : A -> B) (l1 l2 : list A) :
  subsequence l1 l2 -> subsequence (map f l1) (map f l2).
Proof. intro H. induction H; cbn [map]; constructor; assumption. Qed.

Lemma subsequence_length {A : Type} (l1 l2 : list A) :
  subsequence l1 l2 -> (length l1 <= length l2)%nat.
Proof. intro H. induction H; cbn [length]; lia. Qed.

(** ** Further properties of verify and rehash *)

Section ChainExtras.

Variable keccak256 : string -> string.
Variable abi_encode : string -> string -> AttestationRequestData -> string.

Lemma meets_app vhash c l1 l2 :
  meets keccak256 abi_encode vhash c (l1 ++ l2)
  = meets keccak256 abi_encode vhash c l1
    || meets keccak256 abi_encode vhash (foldHash keccak256 abi_encode c l1) l2.
Proof.
  revert c. induction l1 as [| e l1 IH]; intro c; [reflexivity |].
  cbn [app meets]. rewrite IH, orb_assoc. reflexivity.
Qed.

(** [meets] says that one of the prefix commitments is the target. *)
Lemma meets_iff vhash c es :
  meets keccak256 abi_encode vhash c es = true
  <-> exists j, (1 <= j <= length es)%nat
                /\ foldHash keccak256 abi_encode c (firstn j es) = vhash.
Proof.
  revert c. induction es as [| e es IH]; intro c.
  - cbn [meets length]. split; [discriminate | intros [j [Hj _]]; lia].
  - cbn [meets]. rewrite orb_true_iff, String.eqb_eq, IH. split.
    + intros [Hh | [j [Hj Hf]]].
      * exists 1%nat. split; [cbn [length]; lia | exact Hh].
      * exists (S j). split; [cbn [length]; lia | exact Hf].
    + intros [j [Hj Hf]]. destruct j as [| j]; [lia |].
      destruct j as [| j]; [left; exact Hf |].
      right. exists (S j). split; [cbn [length] in Hj; lia | exact Hf].
Qed.

(** [computed] and [found] after the inner loop of [rehash]. *)
Lemma rehash_entries_found vhash s ds c f upd :
  fst (fold_left (rehash_entry keccak256 abi_encode vhash s) ds (c, f, upd))
  = (foldHash keccak256 abi_encode c (map (pair s) ds),
     f || meets keccak256 abi_encode vhash c (map (pair s) ds)).
Proof.
  revert c f upd. induction ds as [| d ds IH]; intros c f upd.
  - cbn. rewrite orb_false_r. reflexivity.
  - cbn [fold_left map meets fst snd]. unfold rehash_entry at 2.
    fold (hash keccak256 abi_encode c s d).
    destruct (hash keccak256 abi_encode c s d =? vhash)%string.
    + rewrite IH. cbn [orb]. rewrite orb_true_r. reflexivity.
    + destruct f; rewrite IH; reflexivity.
Qed.

(** The entries the inner loop keeps are entries of the batch, in order. *)
Lemma rehash_entries_kept vhash s ds c f upd :
  exists kept,
    snd (fold_left (rehash_entry keccak256 abi_encode vhash s) ds (c, f, upd))
    = upd ++ kept
    /\ subsequence kept ds.
Proof.
  revert c f upd. induction ds as [| d ds IH]; intros c f upd.
  - exists []. split; [cbn; rewrite app_nil_r; reflexivity | constructor].
  - cbn [fold_left]. unfold rehash_entry at 2.
    destruct (hash keccak256 abi_encode c s d =? vhash)%string.
    + destruct (IH (hash keccak256 abi_encode c s d) true upd) as [kept [E Hs]].
      exists kept. split; [exact E | constructor; exact Hs].
    + destruct f.
      * destruct (IH (hash keccak256 abi_encode c s d) true (upd ++ [d]))
          as [kept [E Hs]].
        exists (d :: kept). split; [| constructor; exact Hs].
        rewrite E, <- app_assoc. reflexivity.
      * destruct (IH (hash keccak256 abi_encode c s d) false upd) as [kept [E Hs]].
        exists kept. split; [exact E | constructor; exact Hs].
Qed.

(** One request of the outer loop: the commitment moves over its entries,
    [found] records whether the target was met, and at most one batch, not
    empty and made of entries of the request in order, is pushed. *)
Lemma rehash_request_state vhash r c f acc :
  exists kept,
    rehash_request keccak256 abi_encode vhash (c, f, acc) r
    = (foldHash keccak256 abi_encode c (map (pair (req_schema r)) (req_data r)),
       f || meets keccak256 abi_encode vhash c
              (map (pair (req_schema r)) (req_data r)),
       acc ++ kept)
    /\ subsequence (entries kept) (map (pair (req_schema r)) (req_data r))
    /\ Forall (fun b => req_data b <> []) kept.
Proof.
  unfold rehash_request.
  pose proof (rehash_entries_found vhash (req_schema r) (req_data r) c f [])
    as Hfound.
  destruct (rehash_entries_kept vhash (req_schema r) (req_data r) c f [])
    as [upd [Hupd Hsub]].
  destruct (fold_left _ (req_data r) (c, f, [])) as [[c' f'] u].
  cbn [fst snd app] in Hfound, Hupd. inversion Hfound; subst c' f' u.
  destruct ((f || _) && (0 <? length upd)%nat) eqn:Hpush.
  - exists [mkRequest (req_schema r) upd]. split; [reflexivity |]. split.
    + cbn. rewrite app_nil_r. apply subsequence_map. exact Hsub.
    + constructor; [| constructor]. cbn [req_data].
      apply andb_true_iff in Hpush. destruct Hpush as [_ Hlen].
      apply Nat.ltb_lt in Hlen. destruct upd; [cbn in Hlen; lia | discriminate].
  - exists []. split; [rewrite app_nil_r; reflexivity |].
    split; [apply subsequence_nil_l | constructor].
Qed.

(** The outer loop of [rehash], with no assumption on the commitments. *)
Lemma rehash_requests_state vhash requests c f acc :
  exists kept,
    fold_left (rehash_request keccak256 abi_encode vhash) requests (c, f, acc)
    = (foldHash keccak256 abi_encode c (entries requests),
       f || meets keccak256 abi_encode vhash c (entries requests),
       acc ++ kept)
    /\ subsequence (entries kept) (entries requests)
    /\ Forall (fun b => req_data b <> []) kept.
Proof.
  revert c f acc. induction requests as [| r rs IH]; intros c f acc.
  - exists []. cbn. rewrite orb_false_r, app_nil_r.
    split; [reflexivity |]. split; constructor.
  - change (entries (r :: rs))
      with (map (pair (req_schema r)) (req_data r) ++ entries rs).
    cbn [fold_left].
    destruct (rehash_request_state vhash r c f acc) as [k1 [E1 [S1 N1]]].
    rewrite E1.
    destruct (IH (foldHash keccak256 abi_encode c
                    (map (pair (req_schema r)) (req_data r)))
                 (f || meets keccak256 abi_encode vhash c
                         (map (pair (req_schema r)) (req_data r)))
                 (acc ++ k1)) as [k2 [E2 [S2 N2]]].
    exists (k1 ++ k2). rewrite E2. split.
    + rewrite foldHash_app, meets_app, orb_assoc, app_assoc. reflexivity.
    + split.
      * rewrite entries_app. apply subsequence_app; assumption.
      * apply Forall_app. split; assumption.
Qed.

(** What [rehash] does, by whether the target is met. *)
Lemma rehash_cases vhash requests :
  (meets keccak256 abi_encode vhash HashZero (entries requests) = false
   /\ rehash keccak256 abi_encode vhash requests
      = if (vhash =? HashZero)%string then Returned requests
        else Thrown (mkError "verification hash mismatch"))
  \/ (meets keccak256 abi_encode vhash HashZero (entries requests) = true
      /\ exists kept,
           rehash keccak256 abi_encode vhash requests = Returned kept
           /\ subsequence (entries kept) (entries requests)
           /\ Forall (fun b => req_data b <> []) kept).
Proof.
  unfold rehash.
  destruct (rehash_requests_state vhash requests HashZero false [])
    as [kept [E [Hs Hn]]].
  rewrite E. cbn [orb app].
  destruct (meets keccak256 abi_encode vhash HashZero (entries requests)).
  - right. split; [reflexivity |]. exists kept. cbn [negb]. tauto.
  - left. split; reflexivity.
Qed.

Lemma entries_remaining k requests :
  entries (remaining k requests) = skipn k (entries requests).
Proof.
  revert k. induction requests as [| r rs IH]; intro k.
  - cbn. rewrite skipn_nil. reflexivity.
  - rewrite remaining_cons, entries_app, IH.
    change (entries (r :: rs))
      with (map (pair (req_schema r)) (req_data r) ++ entries rs).
    rewrite skipn_app, length_map, skipn_map. f_equal.
    destruct (0 <? length (skipn k (req_data r)))%nat eqn:Hlen.
    + cbn. rewrite app_nil_r. reflexivity.
    + apply Nat.ltb_ge in Hlen.
      destruct (skipn k (req_data r)); [reflexivity | cbn in Hlen; lia].
Qed.

(** [rehash] when the target is met at position [k >= 1] and nowhere
    else. *)
Lemma rehash_hit vhash k requests :
  (1 <= k <= length (entries requests))%nat ->
  hit_only_at keccak256 abi_encode vhash k HashZero 0 (entries requests) ->
  rehash keccak256 abi_encode vhash requests = Returned (remaining k requests).
Proof.
  intros Hk H.
  pose proof (rehash_requests_spec _ _ vhash k requests HashZero 0 [] H) as E.
  replace (reached k 0) with false in E
    by (symmetry; unfold reached; apply andb_false_iff; right;
        apply Nat.leb_gt; lia).
  replace (reached k (0 + length (entries requests))) with true in E
    by (symmetry; unfold reached; apply andb_true_iff;
        split; apply Nat.leb_le; lia).
  replace (1 <=? k)%nat with true in E by (symmetry; apply Nat.leb_le; lia).
  unfold rehash. rewrite E. cbn [negb app]. rewrite Nat.sub_0_r. reflexivity.
Qed.

Lemma prefix_commitment_all requests :
  prefix_commitment keccak256 abi_encode requests (length (entries requests))
  = foldHash keccak256 abi_encode HashZero (entries requests).
Proof. unfold prefix_commitment. rewrite firstn_all. reflexivity. Qed.

(** X3. [verify] looks at the flattened entries only: two collections with
    the same tagged entries in the same order verify alike, however the
    entries are cut into batches. *)
Theorem verify_ignores_batch_boundaries vhash requests1 requests2 :
  entries requests1 = entries requests2 ->
  verify keccak256 abi_encode vhash requests1
  = verify keccak256 abi_encode vhash requests2.
Proof.
  intro H. unfold verify. rewrite !verify_loops_fold, H. reflexivity.
Qed.

(** X4. When [rehash] throws its mismatch error, the target is not genesis,
    no prefix commitment meets it, and [verify] rejects it too. *)
Theorem rehash_mismatch_means_no_match vhash requests :
  rehash keccak256 abi_encode vhash requests
  = Thrown (mkError "verification hash mismatch") ->
  vhash <> HashZero
  /\ (forall j, (1 <= j <= length (entries requests))%nat ->
                prefix_commitment keccak256 abi_encode requests j <> vhash)
  /\ verify keccak256 abi_encode vhash requests = false.
Proof.
  intro H.
  destruct (rehash_cases vhash requests) as [[Hm E] | [_ [kept [E _]]]];
    [| rewrite E in H; discriminate].
  rewrite E in H.
  destruct (String.eqb_spec vhash HashZero) as [_ | Hne]; [discriminate |].
  split; [exact Hne |].
  assert (forall j, (1 <= j <= length (entries requests))%nat ->
                    prefix_commitment keccak256 abi_encode requests j <> vhash)
    as Hnone.
  { intros j Hj Heq.
    assert (meets keccak256 abi_encode vhash HashZero (entries requests) = true)
      as Ht by (apply meets_iff; exists j; split; assumption).
    congruence. }
  split; [exact Hnone |].
  apply not_true_is_false. intro Hv. apply verify_spec in Hv.
  destruct (entries requests) as [| e es] eqn:Hes.
  - apply Hne. symmetry. exact Hv.
  - apply (Hnone (length (e :: es))); [cbn [length]; lia |].
    unfold prefix_commitment. rewrite Hes, firstn_all. exact Hv.
Qed.

(** X5. When [rehash] returns and some prefix commitment is the target,
    none of the batches it returns is empty; no assumption on collisions is
    needed. *)
Theorem rehash_met_no_empty_batch vhash requests j out :
  (1 <= j <= length (entries requests))%nat ->
  prefix_commitment keccak256 abi_encode requests j = vhash ->
  rehash keccak256 abi_encode vhash requests = Returned out ->
  Forall (fun b => req_data b <> []) out.
Proof.
  intros Hj Heq H.
  assert (meets keccak256 abi_encode vhash HashZero (entries requests) = true)
    as Ht by (apply meets_iff; exists j; split; assumption).
  destruct (rehash_cases vhash requests) as [[Hm _] | [_ [kept [E [_ Hn]]]]];
    [congruence |].
  rewrite E in H. inversion H; subst. exact Hn.
Qed.

(** X6. Whatever [rehash] returns holds entries of the input only, each
    under its schema and in the input's order: nothing is added, repeated
    or moved. *)
Theorem rehash_keeps_order vhash requests out :
  rehash keccak256 abi_encode vhash requests = Returned out ->
  subsequence (entries out) (entries requests).
Proof.
  intro H.
  destruct (rehash_cases vhash requests) as [[_ E] | [_ [kept [E [Hs _]]]]];
    rewrite E in H.
  - destruct (vhash =? HashZero)%string; [| discriminate].
    inversion H; subst. apply subsequence_refl.
  - inversion H; subst. exact Hs.
Qed.

(** X7. Resuming: after [k] entries committed without collision, the
    entries [rehash] returns are exactly the entries from position [k] on,
    and hashing them on from the committed value gives the commitment of
    the whole collection. *)
Theorem rehash_resumes_the_chain requests k :
  (k <= length (entries requests))%nat ->
  (forall j, (j <= length (entries requests))%nat -> j <> k ->
             prefix_commitment keccak256 abi_encode requests j
             <> prefix_commitment keccak256 abi_encode requests k) ->
  exists out,
    rehash keccak256 abi_encode
      (prefix_commitment keccak256 abi_encode requests k) requests
    = Returned out
    /\ entries out = skipn k (entries requests)
    /\ foldHash keccak256 abi_encode
         (prefix_commitment keccak256 abi_encode requests k) (entries out)
       = foldHash keccak256 abi_encode HashZero (entries requests).
Proof.
  intros Hk Hfree.
  assert (forall out, entries out = skipn k (entries requests) ->
            foldHash keccak256 abi_encode
              (prefix_commitment keccak256 abi_encode requests k) (entries out)
            = foldHash keccak256 abi_encode HashZero (entries requests)) as Hchain.
  { intros out ->. unfold prefix_commitment.
    rewrite <- foldHash_app, firstn_skipn. reflexivity. }
  destruct k as [| k].
  - exists requests.
    destruct (rehash_cases (prefix_commitment keccak256 abi_encode requests 0)
                requests) as [[_ E] | [Hm _]].
    + split; [exact E |]. split; [reflexivity | apply Hchain; reflexivity].
    + exfalso. apply meets_iff in Hm. destruct Hm as [j [Hj Hf]].
      apply (Hfree j); [lia | lia | exact Hf].
  - exists (remaining (S k) requests). split.
    + apply rehash_hit; [lia |].
      intros j Hj. cbn [Nat.add]. split.
      * intro Heq. destruct (Nat.eq_dec j (S k)) as [E | E]; [exact E |].
        exfalso. apply (Hfree j); [lia | exact E | exact Heq].
      * intros ->. reflexivity.
    + split; [apply entries_remaining |].
      apply Hchain, entries_remaining.
Qed.

(** X8. Once the whole collection is committed ([verify] accepts the
    target) and no earlier prefix has the same commitment, [rehash] leaves
    nothing to publish. *)
Theorem rehash_nothing_left vhash requests :
  verify keccak256 abi_encode vhash requests = true ->
  entries requests <> [] ->
  (forall j, (j < length (entries requests))%nat ->
             prefix_commitment keccak256 abi_encode requests j <> vhash) ->
  rehash keccak256 abi_encode vhash requests = Returned [].
Proof.
  intros Hv Hne Hfree. apply verify_spec in Hv.
  assert (1 <= length (entries requests))%nat as Hlen
    by (destruct (entries requests); [contradiction | cbn [length]; lia]).
  rewrite (rehash_hit vhash (length (entries requests))).
  - f_equal.
    pose proof (entries_remaining (length (entries requests)) requests) as He.
    rewrite skipn_all in He.
    assert (Forall (fun b => (0 <? length (req_data b))%nat = true)
              (remaining (length (entries requests)) requests)) as Hn
      by (apply Forall_forall; intros b Hb; apply filter_In in Hb; tauto).
    destruct (remaining (length (entries requests)) requests) as [| b bs];
      [reflexivity |].
    inversion Hn as [| ? ? Hb _]; subst. apply Nat.ltb_lt in Hb.
    cbn in He. destruct (req_data b); [cbn in Hb; lia | discriminate].
  - lia.
  - intros j Hj. cbn [Nat.add]. split.
    + intro Heq.
      destruct (Nat.eq_dec j (length (entries requests))) as [E | E]; [exact E |].
      exfalso. apply (Hfree j); [lia | exact Heq].
    + intros ->. rewrite firstn_all. exact Hv.
Qed.

End ChainExtras.

(** ** Further properties of pack *)

Lemma group_nonempty l s :
  In s (map att_schema l) -> req_data (group l s) <> [].
Proof.
  intro Hin. apply in_map_iff in Hin. destruct Hin as [a [Hs Ha]].
  cbn [group req_data]. intro Hnil.
  assert (In (request_data_of a)
            (map request_data_of
               (filter (fun a0 => (att_schema a0 =? s)%string) l))) as Hin.
  { apply in_map, filter_In. split; [exact Ha | apply String.eqb_eq, Hs]. }
  rewrite Hnil in Hin. destruct Hin.
Qed.

Lemma first_seen_length l : (length (first_seen l) <= length l)%nat.
Proof.
  induction l as [| s l IH]; [apply Nat.le_refl |].
  cbn [first_seen length].
  pose proof (filter_length_le (fun x => negb (x =? s)%string) (first_seen l)).
  lia.
Qed.

(** X1. No batch of the output of [pack] is empty: a batch exists only
    from the first record of its schema on. *)
Theorem pack_batches_nonempty l b :
  In b (pack l) -> req_data b <> [].
Proof.
  rewrite pack_grouped. intro Hb. apply in_map_iff in Hb.
  destruct Hb as [s [<- Hs]]. apply group_nonempty, first_seen_In, Hs.
Qed.

(** X2. The output of [pack] holds as many entries as there are records,
    in at most as many batches. *)
Theorem pack_entry_count l :
  length (entries (pack l)) = length l
  /\ (length (pack l) <= length l)%nat.
Proof.
  split.
  - rewrite (Permutation_length (entries_pack l)). apply length_map.
  - rewrite pack_grouped, length_map.
    pose proof (first_seen_length (map att_schema l)) as H.
    rewrite length_map in H. exact H.
Qed.

(** ** Further properties of slice *)

Lemma firstn_add {A : Type} (p q : nat) (l : list A) :
  firstn (p + q) l = firstn p l ++ firstn q (skipn p l).
Proof.
  revert l. induction p as [| p IH]; intro l; [reflexivity |].
  destruct l as [| x l]; [cbn; rewrite firstn_nil; reflexivity |].
  cbn [Nat.add firstn skipn app]. rewrite IH. reflexivity.
Qed.

(** Two adjacent ranges of an array make the range that spans them. *)
Lemma array_slice_split {A : Type} (l : list A) (a b c : Z) :
  0 <= a <= b -> b <= c ->
  array_slice l a c = array_slice l a b ++ array_slice l b c.
Proof.
  intros Hab Hbc. unfold array_slice, clamp_index.
  rewrite (proj2 (Z.ltb_ge a 0)), (proj2 (Z.ltb_ge b 0)),
    (proj2 (Z.ltb_ge c 0)) by lia.
  set (len := Z.of_nat (length l)).
  replace (Z.to_nat (Z.min c len - Z.min a len))
    with (Z.to_nat (Z.min b len - Z.min a len)
          + Z.to_nat (Z.min c len - Z.min b len))%nat by lia.
  rewrite firstn_add, skipn_skipn. do 3 f_equal. lia.
Qed.

Lemma array_slice_all {A : Type} (l : list A) (e : Z) :
  Z.of_nat (length l) <= e -> array_slice l 0 e = l.
Proof.
  intro He. unfold array_slice, clamp_index.
  rewrite (proj2 (Z.ltb_ge 0 0)), (proj2 (Z.ltb_ge e 0)) by lia.
  rewrite Z.min_r, Z.min_l by lia.
  rewrite Z.sub_0_r, Nat2Z.id. cbn [Z.to_nat skipn]. apply firstn_all.
Qed.

Lemma array_slice_beyond {A : Type} (l : list A) (s e : Z) :
  Z.of_nat (length l) <= s -> 0 <= e -> array_slice l s e = [].
Proof.
  intros Hs He. unfold array_slice, clamp_index.
  rewrite (proj2 (Z.ltb_ge s 0)), (proj2 (Z.ltb_ge e 0)) by lia.
  replace (Z.to_nat (Z.min e _ - Z.min s _)) with 0%nat by lia.
  reflexivity.
Qed.

Lemma subsequence_trans {A : Type} (l1 l2 l3 : list A) :
  subsequence l1 l2 -> subsequence l2 l3 -> subsequence l1 l3.
Proof.
  intros H12 H23. revert l1 H12.
  induction H23 as [| x l2 l3 _ IH | x l2 l3 _ IH]; intros l1 H12.
  - exact H12.
  - constructor. apply IH. exact H12.
  - inversion H12; subst; constructor; apply IH; assumption.
Qed.

(** A range that starts later holds entries of the range that starts
    earlier. *)
Lemma array_slice_later {A : Type} (l : list A) (a b c : Z) :
  0 <= a <= b -> 0 <= c ->
  subsequence (array_slice l b c) (array_slice l a c).
Proof.
  intros Hab Hc. destruct (Z_le_gt_dec b c) as [Hbc | Hcb].
  - rewrite (array_slice_split l a b c) by lia.
    apply (subsequence_app [] _ _ _);
      [apply subsequence_nil_l | apply subsequence_refl].
  - replace (array_slice l b c) with (@nil A); [apply subsequence_nil_l |].
    unfold array_slice, clamp_index.
    rewrite (proj2 (Z.ltb_ge b 0)), (proj2 (Z.ltb_ge c 0)) by lia.
    replace (Z.to_nat (Z.min c _ - Z.min b _)) with 0%nat by lia.
    reflexivity.
Qed.

Lemma entries_same_schema s batches :
  Forall (fun b => req_schema b = s) batches ->
  entries batches = map (pair s) (flat_map req_data batches).
Proof.
  intro H. induction H as [| b bs Hb _ IH]; [reflexivity |].
  change (entries (b :: bs)) with (map (pair (req_schema b)) (req_data b) ++ entries bs).
  cbn [flat_map]. rewrite map_app, IH, Hb. reflexivity.
Qed.

Section SliceExtras.

Variable est : estimator.
Variable limit : Z.
Variable request : MultiAttestationRequest.

Local Abbreviation len := (Z.of_nat (length (req_data request))).

(** When every range fits, the inner loop runs [lo] past [hi]. *)
Lemma search_all_fit start lo hi :
  (forall r, fits est limit r) -> lo <= hi + 1 ->
  search est limit request start lo hi = inl (hi + 1).
Proof.
  intro Hall. revert lo hi.
  apply (search_induction est limit request start
           (fun lo hi res => lo <= hi + 1 -> res = inl (hi + 1))).
  - intros lo hi Hgt Hle. f_equal. lia.
  - intros lo hi Hle _ IH _. apply IH.
    pose proof (mid_between lo hi Hle). lia.
  - intros lo hi _ Hbig _ _.
    destruct (fits_not_too_big est limit _ (Hall _) Hbig).
  - intros lo hi err _ He _ _. destruct (Hall (range request start ((lo + hi) / 2)))
      as [c [Hc _]]. rewrite He in Hc. discriminate.
Qed.

(** Where the inner loop ends, the range one entry longer was rejected,
    unless [lo] ran past [hi]. *)
Lemma search_upper start lo hi lo' :
  lo <= hi + 1 ->
  search est limit request start lo hi = inl lo' ->
  lo' = hi + 1 \/ (lo' <= hi /\ too_big est limit (range request start lo')).
Proof.
  revert lo hi.
  apply (search_induction est limit request start
           (fun lo hi res =>
              lo <= hi + 1 -> res = inl lo' ->
              lo' = hi + 1
              \/ (lo' <= hi /\ too_big est limit (range request start lo')))).
  - intros lo hi Hgt Hle Hres. inversion Hres; subst. left. lia.
  - intros lo hi Hle _ IH _ Hres. apply IH; [| exact Hres].
    pose proof (mid_between lo hi Hle). lia.
  - intros lo hi Hle Hbig IH _ Hres. pose proof (mid_between lo hi Hle) as Hmid.
    destruct (IH ltac:(lia) Hres) as [-> | [Hle' Hb]].
    + right. split; [lia |].
      replace ((lo + hi) / 2 - 1 + 1) with ((lo + hi) / 2) by lia. exact Hbig.
    + right. split; [lia | exact Hb].
  - intros lo hi err _ _ _ _ Hres. discriminate.
Qed.

(** When every range fits, a request with entries comes back whole, as one
    slice, and a request without entries gives no slice. *)
Lemma slice_request_all_fit fuel sliced :
  (forall r, fits est limit r) ->
  slice_request (S fuel) est limit request 0 sliced
  = Returned (sliced ++ (if (0 <? length (req_data request))%nat
                         then [request] else [])).
Proof.
  intro Hall. rewrite slice_request_step.
  destruct (Nat.ltb_spec 0 (length (req_data request))) as [Hpos | Hzero].
  - replace (0 <? len) with true by (symmetry; apply Z.ltb_lt; lia).
    rewrite search_all_fit by (assumption || lia).
    rewrite slice_request_done by lia.
    do 2 f_equal. unfold range. rewrite array_slice_all by lia.
    destruct request; reflexivity.
  - replace (0 <? len) with false by (symmetry; apply Z.ltb_ge; lia).
    rewrite app_nil_r. reflexivity.
Qed.

(** What a returned run of the outer loop adds to [sliced]: slices of the
    request's schema, holding entries of the range still to slice in their
    order, and no more slices than that range has entries. *)
Lemma slice_request_keeps fuel start sliced out :
  0 <= start ->
  slice_request fuel est limit request start sliced = Returned out ->
  exists tail,
    out = sliced ++ tail
    /\ Forall (fun b => req_schema b = req_schema request) tail
    /\ subsequence (flat_map req_data tail)
         (array_slice (req_data request) start len)
    /\ (length tail <= Z.to_nat (len - start))%nat.
Proof.
  revert start sliced. induction fuel as [| fuel IH]; intros start sliced H0 H.
  - cbn [slice_request] in H. destruct (start <? len); [discriminate |].
    inversion H; subst. exists []. rewrite app_nil_r.
    repeat split; [constructor | apply subsequence_nil_l | cbn; lia].
  - rewrite slice_request_step in H.
    destruct (Z.ltb_spec start len) as [Hlt | Hge].
    + pose proof (search_result est limit request start start len) as Hr.
      destruct (search est limit request start start len) as [lo | err] eqn:Hse;
        [| discriminate].
      destruct Hr as [Hge [-> | [_ Hb]]].
      * rewrite (slice_request_stuck est limit request start Hlt Hse) in H.
        discriminate.
      * destruct (IH lo _ ltac:(lia) H) as [tail [-> [Hs [Hsub Hlen]]]].
        exists (range request start (Z.max start (lo - 1)) :: tail).
        rewrite <- app_assoc. split; [reflexivity |].
        split; [constructor; [reflexivity | exact Hs] |]. split.
        -- cbn [flat_map range req_data]. rewrite Z.max_r by lia.
           rewrite (array_slice_split (req_data request) start (lo - 1) len)
             by lia.
           apply subsequence_app; [apply subsequence_refl |].
           apply (subsequence_trans _ _ _ Hsub).
           apply array_slice_later; lia.
        -- cbn [length]. lia.
    + inversion H; subst. exists []. rewrite app_nil_r.
      repeat split; [constructor | apply subsequence_nil_l | cbn; lia].
Qed.

End SliceExtras.

Lemma filter_all {A : Type} (f : A -> bool) (l : list A) :
  (forall x, In x l -> f x = true) -> filter f l = l.
Proof.
  induction l as [| x l IH]; intro H; [reflexivity |].
  cbn [filter]. rewrite (H x (or_introl eq_refl)), IH; [reflexivity |].
  intros y Hy. apply H. right. exact Hy.
Qed.

Lemma slice_requests_all_fit fuel est limit requests sliced :
  (forall r, fits est limit r) ->
  slice_requests (S fuel) est limit requests sliced
  = Returned (sliced ++ filter (fun r => (0 <? length (req_data r))%nat) requests).
Proof.
  intro Hall. revert sliced.
  induction requests as [| r rs IH]; intro sliced.
  - cbn. rewrite app_nil_r. reflexivity.
  - cbn [slice_requests filter].
    rewrite (slice_request_all_fit est limit r fuel sliced Hall), IH.
    destruct (0 <? length (req_data r))%nat;
      rewrite <- app_assoc; reflexivity.
Qed.

Lemma slice_requests_keeps fuel est limit requests sliced out :
  slice_requests fuel est limit requests sliced = Returned out ->
  exists tail,
    out = sliced ++ tail
    /\ subsequence (entries tail) (entries requests)
    /\ (length tail <= length (entries requests))%nat.
Proof.
  revert sliced. induction requests as [| r rs IH]; intros sliced H.
  - inversion H; subst. exists []. rewrite app_nil_r.
    split; [reflexivity |]. split; [constructor | apply Nat.le_refl].
  - cbn [slice_requests] in H.
    destruct (slice_request fuel est limit r 0 sliced) as [mid | |] eqn:Hr;
      try discriminate.
    destruct (slice_request_keeps est limit r fuel 0 sliced mid (Z.le_refl 0) Hr)
      as [t1 [-> [Hs [Hsub Hlen]]]].
    destruct (IH _ H) as [t2 [-> [Hsub2 Hlen2]]].
    exists (t1 ++ t2). rewrite app_assoc. split; [reflexivity |].
    change (entries (r :: rs))
      with (map (pair (req_schema r)) (req_data r) ++ entries rs).
    rewrite array_slice_all in Hsub by lia. split.
    + rewrite entries_app. apply subsequence_app; [| exact Hsub2].
      rewrite (entries_same_schema _ _ Hs). apply subsequence_map. exact Hsub.
    + rewrite !length_app, length_map. lia.
Qed.

Lemma slice_requests_terminates fuel est limit requests sliced :
  (forall r, In r requests -> fits est limit (mkRequest (req_schema r) [])) ->
  (forall r, In r requests -> (length (req_data r) <= fuel)%nat) ->
  slice_requests fuel est limit requests sliced <> OutOfFuel.
Proof.
  revert sliced. induction requests as [| r rs IH]; intros sliced Hfit Hfuel;
    [discriminate |].
  cbn [slice_requests].
  pose proof (slice_request_terminates est limit r fuel 0 sliced
                (Hfit r (or_introl eq_refl))) as Hr.
  destruct (slice_request fuel est limit r 0 sliced) as [mid | err |].
  - apply IH; intros r' Hr'; [apply Hfit | apply Hfuel]; right; exact Hr'.
  - discriminate.
  - exfalso. apply Hr; [| reflexivity].
    specialize (Hfuel r (or_introl eq_refl)). lia.
Qed.

(** X9. The inner binary search ends on a boundary: the range that ends at
    [lo - 1] was accepted by the estimator unless [lo] never moved, and the
    range that ends at [lo] was rejected unless [lo] ran past [hi]. *)
Theorem search_boundary est limit request start hi lo :
  start <= hi + 1 ->
  search est limit request start start hi = inl lo ->
  start <= lo <= hi + 1
  /\ (lo = start \/ fits est limit (range request start (lo - 1)))
  /\ (lo = hi + 1 \/ too_big est limit (range request start lo)).
Proof.
  intros Hle Hs.
  pose proof (search_result est limit request start start hi) as Hr.
  rewrite Hs in Hr. destruct Hr as [Hge Hfit].
  pose proof (search_upper est limit request start start hi lo Hle Hs) as Hup.
  split; [lia |]. split; [tauto | tauto].
Qed.

(** X10. When the estimator accepts every range, [slice] returns each
    request that has entries whole, as a single slice, in input order, and
    drops the requests without entries. *)
Theorem slice_all_fit fuel est limit requests :
  (forall r, fits est limit r) ->
  slice (S fuel) (mkAttester (Some est) limit) requests
  = Returned (filter (fun r => (0 <? length (req_data r))%nat) requests).
Proof.
  intro Hall. unfold slice. cbn [estimateGas_attest gasLimit].
  rewrite slice_requests_all_fit by exact Hall. reflexivity.
Qed.

(** X11. [pack] then [slice], as the generate command chains them: when
    the estimator accepts every range, the packed batches come back
    unchanged. *)
Theorem slice_of_pack_all_fit fuel est limit attestations :
  (forall r, fits est limit r) ->
  slice (S fuel) (mkAttester (Some est) limit) (pack attestations)
  = Returned (pack attestations).
Proof.
  intro Hall. unfold slice. cbn [estimateGas_attest gasLimit].
  rewrite slice_requests_all_fit by exact Hall. cbn [app]. f_equal.
  apply filter_all. intros b Hb. rewrite pack_grouped in Hb.
  apply in_map_iff in Hb. destruct Hb as [s [<- Hs]].
  apply (proj1 (first_seen_In _ _)) in Hs. apply group_nonempty in Hs.
  apply Nat.ltb_lt. destruct (req_data (group attestations s));
    [contradiction | cbn [length]; lia].
Qed.

(** X12. Whatever [slice] returns holds entries of the input only, each
    under its schema and in the input's order: entries can be left out,
    but none is added, repeated or moved. *)
Theorem slice_keeps_order fuel attester requests out :
  slice fuel attester requests = Returned out ->
  subsequence (entries out) (entries requests).
Proof.
  unfold slice. destruct (estimateGas_attest attester) as [est |];
    [| discriminate].
  intro H. destruct (slice_requests_keeps _ _ _ _ _ _ H) as [tail [-> [Hs _]]].
  exact Hs.
Qed.

(** X13. When the estimator accepts the empty range of every request's
    schema, [slice] ends, by returning or by throwing, within as many turns
    of the outer loop as the longest request has entries. *)
Theorem slice_terminates_when_empty_fits fuel est limit requests :
  (forall r, In r requests -> fits est limit (mkRequest (req_schema r) [])) ->
  (forall r, In r requests -> (length (req_data r) <= fuel)%nat) ->
  slice fuel (mkAttester (Some est) limit) requests <> OutOfFuel.
Proof.
  intros Hfit Hfuel. unfold slice. cbn [estimateGas_attest gasLimit].
  apply slice_requests_terminates; assumption.
Qed.

(** X14. [slice] never returns more slices than the input has entries. *)
Theorem slice_count_bound fuel attester requests out :
  slice fuel attester requests = Returned out ->
  (length out <= length (entries requests))%nat.
Proof.
  unfold slice. destruct (estimateGas_attest attester) as [est |];
    [| discriminate].
  intro H. destruct (slice_requests_keeps _ _ _ _ _ _ H) as [tail [-> [_ Hl]]].
  exact Hl.
Qed.

(** ** Properties of resolve *)

Lemma lookup_chain_In mapping chainid address :
  lookup_chain mapping chainid = Some address -> In (chainid, address) mapping.
Proof.
  induction mapping as [| [id a] rest IH]; [discriminate |].
  cbn [lookup_chain]. destruct (Z.eqb_spec id chainid) as [-> | _].
  - intro H. inversion H; subst. left. reflexivity.
  - intro H. right. apply IH, H.
Qed.

(** X15. [resolve] over a mapping without empty addresses never returns an
    empty address; and it throws exactly when no address is supplied (absent
    or empty) and the chain id cannot be read or is not in the mapping. *)
Theorem resolve_result mapping chain supplied :
  Forall (fun entry => snd entry <> ""%string) mapping ->
  (forall address, resolve mapping chain supplied = Returned address ->
                   address <> ""%string)
  /\ ((exists err, resolve mapping chain supplied = Thrown err)
      <-> (supplied = None \/ supplied = Some ""%string)
          /\ ((exists err, chain = inr err)
              \/ (exists chainid, chain = inl chainid
                                  /\ lookup_chain mapping chainid = None))).
Proof.
  intro Hmap. rewrite Forall_forall in Hmap.
  assert (forall supplied',
            supplied' = None \/ supplied' = Some ""%string ->
            resolve mapping chain supplied'
            = match chain with
              | inr err => Thrown err
              | inl chainid =>
                  match lookup_chain mapping chainid with
                  | Some resolved => Returned resolved
                  | None =>
                      Thrown (mkError ("EAS contract not found for chain id "
                                       ++ chainid_to_string chainid
                                       ++ ", must supply manually")%string)
                  end
              end) as Hfalsy
    by (intros s' [-> | ->]; reflexivity).
  destruct supplied as [s |]; [destruct (String.eqb_spec s "") as [-> | Hs] |].
  2: { assert (resolve mapping chain (Some s) = Returned s) as E
         by (unfold resolve; destruct (String.eqb_spec s ""); [contradiction | reflexivity]).
       rewrite E. split.
       - intros a Ha. inversion Ha; subst. exact Hs.
       - split; [intros [err H]; discriminate |].
         intros [[H | H] _]; [discriminate | inversion H; contradiction]. }
  all: rewrite Hfalsy by tauto;
    destruct chain as [chainid | err];
    [destruct (lookup_chain mapping chainid) as [resolved |] eqn:Hl |].
  all: split;
    [intros a Ha; inversion Ha; subst;
     apply (Hmap _ (lookup_chain_In _ _ _ Hl)) || idtac |].
  all: try (split; [intros [e He]; discriminate |
                    intros [_ [[e He] | [c [Hc Hn]]]];
                    [discriminate | inversion Hc; subst; congruence]]).
  all: try (split; [intros _; split; [tauto |]; eauto | intros _; eauto]).
Qed.

(** ** The further properties on the sample data *)

Lemma pack_batches_nonempty_witness :
  req_data (mkRequest "0xB" [request_data_of Sample.unaddressed]) <> [].
Proof.
  apply (pack_batches_nonempty Sample.records).
  vm_compute. right. left. reflexivity.
Defined.

Lemma verify_ignores_batch_boundaries_witness :
  verify Sample.toy_keccak Sample.toy_encode
    (prefix_commitment Sample.toy_keccak Sample.toy_encode Sample.two_batches 3)
    [mkRequest "0xA" [Sample.r1]; mkRequest "0xA" [Sample.r3];
     mkRequest "0xB" [Sample.r2]]
  = verify Sample.toy_keccak Sample.toy_encode
      (prefix_commitment Sample.toy_keccak Sample.toy_encode Sample.two_batches 3)
      Sample.two_batches.
Proof.
  apply verify_ignores_batch_boundaries. reflexivity.
Defined.

Lemma rehash_mismatch_means_no_match_witness :
  "0xdead"%string <> HashZero
  /\ (forall j, (1 <= j <= length (entries Sample.two_batches))%nat ->
        prefix_commitment Sample.toy_keccak Sample.toy_encode
          Sample.two_batches j <> "0xdead"%string)
  /\ verify Sample.toy_keccak Sample.toy_encode "0xdead" Sample.two_batches
     = false.
Proof.
  apply (rehash_mismatch_means_no_match Sample.toy_keccak Sample.toy_encode
           "0xdead" Sample.two_batches).
  vm_compute. reflexivity.
Defined.

Lemma rehash_met_no_empty_batch_witness :
  Forall (fun b => req_data b <> []) [mkRequest "0xB" [Sample.r2]].
Proof.
  apply (rehash_met_no_empty_batch Sample.toy_keccak Sample.toy_encode
           (prefix_commitment Sample.toy_keccak Sample.toy_encode
              Sample.two_batches 2)
           Sample.two_batches 2).
  - vm_compute. lia.
  - reflexivity.
  - vm_compute. reflexivity.
Defined.

Lemma rehash_keeps_order_witness :
  subsequence
    (entries [mkRequest "0xA" [Sample.r3]; mkRequest "0xB" [Sample.r2]])
    (entries Sample.two_batches).
Proof.
  apply (rehash_keeps_order Sample.toy_keccak Sample.toy_encode
           (prefix_commitment Sample.toy_keccak Sample.toy_encode
              Sample.two_batches 1)).
  vm_compute. reflexivity.
Defined.

Lemma rehash_resumes_the_chain_witness :
  exists out,
    rehash Sample.toy_keccak Sample.toy_encode
      (prefix_commitment Sample.toy_keccak Sample.toy_encode Sample.two_batches 2)
      Sample.two_batches
    = Returned out
    /\ entries out = skipn 2 (entries Sample.two_batches)
    /\ foldHash Sample.toy_keccak Sample.toy_encode
         (prefix_commitment Sample.toy_keccak Sample.toy_encode
            Sample.two_batches 2) (entries out)
       = foldHash Sample.toy_keccak Sample.toy_encode HashZero
           (entries Sample.two_batches).
Proof.
  apply (rehash_resumes_the_chain Sample.toy_keccak Sample.toy_encode
           Sample.two_batches 2).
  - vm_compute. lia.
  - intros j Hj Hne. cbn in Hj.
    assert (j = 0 \/ j = 1 \/ j = 3)%nat as [-> | [-> | ->]] by lia;
      vm_compute; discriminate.
Defined.

Lemma rehash_nothing_left_witness :
  rehash Sample.toy_keccak Sample.toy_encode
    (prefix_commitment Sample.toy_keccak Sample.toy_encode Sample.two_batches 3)
    Sample.two_batches
  = Returned [].
Proof.
  apply rehash_nothing_left.
  - vm_compute. reflexivity.
  - discriminate.
  - intros j Hj. cbn in Hj.
    assert (j = 0 \/ j = 1 \/ j = 2)%nat as [-> | [-> | ->]] by lia;
      vm_compute; discriminate.
Defined.

Lemma search_boundary_witness :
  0 <= 2 <= 2 + 1
  /\ (2 = 0
      \/ fits Sample.one_at_a_time Sample.block_limit
           (range (mkRequest "0xA" [Sample.r1; Sample.r3]) 0 (2 - 1)))
  /\ (2 = 2 + 1
      \/ too_big Sample.one_at_a_time Sample.block_limit
           (range (mkRequest "0xA" [Sample.r1; Sample.r3]) 0 2)).
Proof.
  apply (search_boundary Sample.one_at_a_time Sample.block_limit
           (mkRequest "0xA" [Sample.r1; Sample.r3]) 0 2 2).
  - lia.
  - vm_compute. reflexivity.
Defined.

Lemma always_fits_fits r : fits Sample.always_fits Sample.block_limit r.
Proof.
  exists 21000. split; [reflexivity | unfold Sample.block_limit; lia].
Defined.

Lemma slice_all_fit_witness :
  slice 1 (mkAttester (Some Sample.always_fits) Sample.block_limit)
    [mkRequest "0xA" [Sample.r1; Sample.r3]; mkRequest "0xB" []]
  = Returned [mkRequest "0xA" [Sample.r1; Sample.r3]].
Proof.
  apply (slice_all_fit 0 Sample.always_fits Sample.block_limit
           [mkRequest "0xA" [Sample.r1; Sample.r3]; mkRequest "0xB" []]).
  exact always_fits_fits.
Defined.

Lemma slice_of_pack_all_fit_witness :
  slice 1 (mkAttester (Some Sample.always_fits) Sample.block_limit)
    (pack Sample.records)
  = Returned (pack Sample.records).
Proof.
  apply slice_of_pack_all_fit. exact always_fits_fits.
Defined.

Lemma slice_keeps_order_witness :
  subsequence (entries [mkRequest "0xA" [Sample.r1]])
    (entries [mkRequest "0xA" [Sample.r1; Sample.r3]]).
Proof.
  apply (slice_keeps_order 1
           (mkAttester (Some Sample.one_at_a_time) Sample.block_limit)).
  vm_compute. reflexivity.
Defined.

Lemma slice_terminates_when_empty_fits_witness :
  slice 2 (mkAttester (Some Sample.one_at_a_time) Sample.block_limit)
    [mkRequest "0xA" [Sample.r1; Sample.r3]]
  <> OutOfFuel.
Proof.
  apply slice_terminates_when_empty_fits.
  - intros r [<- | []]. exists 21000.
    split; [reflexivity | unfold Sample.block_limit; lia].
  - intros r [<- | []]. cbn. lia.
Defined.

Lemma slice_count_bound_witness :
  (length [mkRequest "0xA" [Sample.r1]]
   <= length (entries [mkRequest "0xA" [Sample.r1; Sample.r3]]))%nat.
Proof.
  apply (slice_count_bound 1
           (mkAttester (Some Sample.one_at_a_time) Sample.block_limit)).
  vm_compute. reflexivity.
Defined.

Lemma resolve_result_witness :
  (forall address, resolve EAS (inl 10) None = Returned address ->
                   address <> ""%string)
  /\ ((exists err, resolve EAS (inl 10) None = Thrown err)
      <-> (@None string = None \/ None = Some ""%string)
          /\ ((exists err, @inl Z Error 10 = inr err)
              \/ (exists chainid, @inl Z Error 10 = inl chainid
                                  /\ lookup_chain EAS chainid = None))).
Proof.
  apply (resolve_result EAS (inl 10) None).
  repeat constructor. discriminate.
Defined.

(** The error for a chain without entry names EAS, whichever mapping was
    asked. *)
Example resolve_unmapped_registry :
  resolve REGISTRY (inl 10) (Some ""%string)
  = Thrown (mkError "EAS contract not found for chain id 10, must supply manually").
Proof. reflexivity. Qed.

(** A supplied address is returned without the chain id being read. *)
Example resolve_supplied :
  resolve EAS (inr (mkError "could not detect network")) (Some "0xabc"%string)
  = Returned "0xabc"%string.
Proof. reflexivity. Qed.
